(** * Tree-constrained beam search of PSI-Transformer

    A shallow embedding of
    - [flccpsisrc/common/model_evaluation/beam_search/search.py]
      ([Hypothesis], [BeamSearch]) and
    - [src/common/model_evaluation/evaluate_predictions.py]
      ([PredictionPostprocessor._normalize_score]).

    Floating-point scores are modelled as IEEE values over the reals:
    a finite value [Fin r], the two infinities and NaN.  Tensors are
    modelled as rectangular functions from (row, column) to scores. *)

From Stdlib Require Import Reals Lra Lia List Bool Arith PeanoNat ZArith.
From Stdlib Require Import Sorting.Permutation Sorting.Sorted.
Import ListNotations.

(** ** Floating-point scores *)

Inductive ext : Type :=
| Fin (r : R)
| NegInf
| PosInf
| NaN.

(** [torch.isnan] *)
Definition is_nan (x : ext) : bool :=
  match x with NaN => true | _ => false end.

Definition is_neginf (x : ext) : bool :=
  match x with NegInf => true | _ => false end.

(** IEEE addition. *)
Definition ext_add (x y : ext) : ext :=
  match x, y with
  | NaN, _ | _, NaN => NaN
  | PosInf, NegInf | NegInf, PosInf => NaN
  | PosInf, _ | _, PosInf => PosInf
  | NegInf, _ | _, NegInf => NegInf
  | Fin a, Fin b => Fin (a + b)
  end.

(** The order [torch.topk] selects by: NaN counts as the largest value. *)
Definition ext_le (x y : ext) : Prop :=
  match x, y with
  | _, NaN => True
  | NaN, _ => False
  | NegInf, _ => True
  | _, NegInf => False
  | _, PosInf => True
  | PosInf, _ => False
  | Fin a, Fin b => (a <= b)%R
  end.

(** Python's [x ** y] on floats, for a positive base. *)
Definition pypow (x y : R) : R := Rpower x y.

(** ** [Hypothesis] (a keyword of Rocq, hence [Hypothesis_]) *)

Record Hypothesis_ (TB : Type) := mkHypothesis {
  ids : list nat;
  tree_builder : TB;
  score : ext;
  is_terminated : bool
}.
Arguments mkHypothesis {TB}.
Arguments ids {TB}.
Arguments tree_builder {TB}.
Arguments score {TB}.
Arguments is_terminated {TB}.

(** [norm_factor = ((len_norm_base + hyp_length) / (len_norm_base + 1)) ** len_norm_pow] *)
Definition norm_factor (len_norm_base : R) (hyp_length : nat) (len_norm_pow : R) : R :=
  pypow ((len_norm_base + INR hyp_length) / (len_norm_base + 1)) len_norm_pow.

(** [Hypothesis.get_normalized_score]: [math.exp(self.score / norm_factor)];
    [math.exp] of [-inf] is [0.0]. *)
Definition get_normalized_score {TB} (h : Hypothesis_ TB)
    (len_norm_base len_norm_pow : R) : ext :=
  let nf := norm_factor len_norm_base (length (ids h)) len_norm_pow in
  match score h with
  | Fin s => Fin (exp (s / nf))
  | NegInf => Fin 0
  | PosInf => PosInf
  | NaN => NaN
  end.

(** The defaults of [get_normalized_score]. *)
Definition default_len_norm_base : R := 5.
Definition default_len_norm_pow : R := 0.7.

(** ** [PredictionPostprocessor] of the evaluation script *)

Module PredictionPostprocessor.

Record t := mk {
  len_norm_base : R;
  len_norm_pow : R
}.

(** [_normalize_score]: [score / norm_factor], no exponential. *)
Definition normalize_score (self : t) (length : nat) (score : R) : R :=
  score / norm_factor (len_norm_base self) length (len_norm_pow self).

End PredictionPostprocessor.

(** ** Tensors *)

(** A 2-D tensor: its size and its entries. *)
Record Tensor := mkTensor {
  t_rows : nat;
  t_cols : nat;
  t_at : nat -> nat -> ext
}.

Definition row_list (t : Tensor) (i : nat) : list ext :=
  map (t_at t i) (seq 0 (t_cols t)).

(** [torch.flatten], row-major. *)
Definition flatten (t : Tensor) : list ext :=
  flat_map (row_list t) (seq 0 (t_rows t)).

(** [torch.nn.functional.log_softmax(row, dim=-1)]: [x - log(sum(exp(row)))].
    A row holding a NaN or [+inf], or only [-inf], becomes all NaN. *)
Definition log_softmax_row (row : list ext) : list ext :=
  if existsb (fun x => match x with NaN | PosInf => true | _ => false end) row
     || forallb is_neginf row
  then map (fun _ => NaN) row
  else
    let s := fold_right
               (fun x acc => match x with Fin r => (exp r + acc)%R | _ => acc end)
               0%R row in
    map (fun x => match x with Fin r => Fin (r - ln s) | _ => NegInf end) row.

Definition log_softmax (t : Tensor) : Tensor :=
  mkTensor (t_rows t) (t_cols t)
    (fun i j => nth j (log_softmax_row (row_list t i)) NaN).

(** [log_probs[row_id, row_mask] = float("-inf")] where [row_mask] is
    false exactly on [possible_ids]: an in-place write. *)
Definition mask_row (t : Tensor) (row_id : nat) (possible_ids : list nat) : Tensor :=
  mkTensor (t_rows t) (t_cols t)
    (fun i j => if (i =? row_id) && negb (existsb (Nat.eqb j) possible_ids)
                then NegInf else t_at t i j).

(** [log_probs.add_(scores.unsqueeze(1))] *)
Definition add_scores (t : Tensor) (scores : list ext) : Tensor :=
  mkTensor (t_rows t) (t_cols t)
    (fun i j => ext_add (t_at t i j) (nth i scores NaN)).

(** ** Exceptions and results *)

Inductive Exn : Type :=
| AssertionError
| IndexError
| RuntimeError
| TypeError
| ZeroDivisionError.

(** The result of [BeamSearch.step]: an exception, or the returned
    [Optional[torch.Tensor]]. *)
Inductive Outcome : Type :=
| Raised (e : Exn)
| Returned (r : option (list nat)).

(** Modelled from the spec: the [ChangeStatus] enum of the tree builder
    ([tree_structures/tree_builder.py], not under src/).  The decoder only
    compares a status with [END_LINE] ("sequence complete"); every other
    member ("legal but not complete") is [NOT_END_LINE] here. *)
Inductive ChangeStatus : Type :=
| END_LINE
| NOT_END_LINE.

(** ** [BeamSearch] state *)

Record BeamSearch (TB : Type) := mkBeamSearch {
  bs_vocab_size : nat;
  bs_beam_size : nat;
  bs_length : nat;
  bs_terminated_hypotheses : list (Hypothesis_ TB);
  bs_scores : option (list ext);
  bs_hypotheses : option (list (list nat));
  bs_samples : option (list nat);
  bs_sort_mask : option (list nat);
  (** the size of the boolean [_row_mask] tensor *)
  bs_row_mask : option nat;
  bs_tree_builders : list TB;
  bs_is_initialized : bool
}.
Arguments mkBeamSearch {TB}.
Arguments bs_vocab_size {TB}.
Arguments bs_beam_size {TB}.
Arguments bs_length {TB}.
Arguments bs_terminated_hypotheses {TB}.
Arguments bs_scores {TB}.
Arguments bs_hypotheses {TB}.
Arguments bs_samples {TB}.
Arguments bs_sort_mask {TB}.
Arguments bs_row_mask {TB}.
Arguments bs_tree_builders {TB}.
Arguments bs_is_initialized {TB}.

(** [BeamSearch.__init__] *)
Definition new_BeamSearch {TB} (vocab_size beam_size : nat) (tree_builder : TB)
  : BeamSearch TB :=
  {| bs_vocab_size := vocab_size; bs_beam_size := beam_size; bs_length := 1;
     bs_terminated_hypotheses := []; bs_scores := None; bs_hypotheses := None;
     bs_samples := None; bs_sort_mask := None; bs_row_mask := None;
     bs_tree_builders := [tree_builder]; bs_is_initialized := false |}.

(** [BeamSearch.batch_size] *)
Definition batch_size {TB} (bs : BeamSearch TB) : nat :=
  match bs_scores bs with None => 1 | Some s => length s end.

(** [BeamSearch.current_hypotheses] (on an initialised state). *)
Definition current_hypotheses {TB} (bs : BeamSearch TB) : list (Hypothesis_ TB) :=
  match bs_hypotheses bs, bs_scores bs with
  | Some hs, Some ss =>
      map (fun '(h, (tb, s)) => mkHypothesis h tb s false)
        (combine hs (combine (bs_tree_builders bs) ss))
  | _, _ => []
  end.

Definition set_terminated {TB} (t : list (Hypothesis_ TB)) (bs : BeamSearch TB) :=
  {| bs_vocab_size := bs_vocab_size bs; bs_beam_size := bs_beam_size bs;
     bs_length := bs_length bs; bs_terminated_hypotheses := t;
     bs_scores := bs_scores bs; bs_hypotheses := bs_hypotheses bs;
     bs_samples := bs_samples bs; bs_sort_mask := bs_sort_mask bs;
     bs_row_mask := bs_row_mask bs; bs_tree_builders := bs_tree_builders bs;
     bs_is_initialized := bs_is_initialized bs |}.

(** [BeamSearch._init_state] followed by [self._is_initialized = True]. *)
Definition init_state {TB} (bs : BeamSearch TB) (log_probs : Tensor)
  : Exn + BeamSearch TB :=
  match bs_scores bs, bs_hypotheses bs with
  | None, None =>
      inr {| bs_vocab_size := bs_vocab_size bs; bs_beam_size := bs_beam_size bs;
             bs_length := bs_length bs;
             bs_terminated_hypotheses := bs_terminated_hypotheses bs;
             bs_scores := Some [Fin 0]; bs_hypotheses := Some [[]];
             bs_samples := bs_samples bs; bs_sort_mask := bs_sort_mask bs;
             bs_row_mask := Some (t_cols log_probs);
             bs_tree_builders := bs_tree_builders bs; bs_is_initialized := true |}
  | _, _ => inl AssertionError
  end.

(** [BeamSearch._step_check]: the assertion's condition. *)
Definition step_check {TB} (bs : BeamSearch TB) (log_probs : Tensor) : bool :=
  (t_rows log_probs =? batch_size bs) && (t_cols log_probs =? bs_vocab_size bs).

(** The lists [_step] fills while it scans the candidates; [d_terminated]
    is [self._terminated_hypotheses], appended to in place. *)
Record Draft (TB : Type) := mkDraft {
  d_samples : list nat;
  d_tree_builders : list TB;
  d_sort_mask : list nat;
  d_sample_scores : list ext;
  d_terminated : list (Hypothesis_ TB)
}.
Arguments mkDraft {TB}.
Arguments d_samples {TB}.
Arguments d_tree_builders {TB}.
Arguments d_sort_mask {TB}.
Arguments d_sample_scores {TB}.
Arguments d_terminated {TB}.

(** [self._hypotheses[sort_mask]] *)
Fixpoint gather (rows : list (list nat)) (idx : list nat) : option (list (list nat)) :=
  match idx with
  | [] => Some []
  | i :: rest =>
      match nth_error rows i, gather rows rest with
      | Some r, Some rs => Some (r :: rs)
      | _, _ => None
      end
  end.

(** ** [BeamSearch.step] *)

Section Decoder.

(** Modelled from the spec: the tree builder ([TreeBuilder], not under
    src/).  It reports the legal next token ids, and a copy of it can be
    advanced by a token id, reporting whether the line (sequence) is
    complete.  [add_id tb t] is [tb.copy()] advanced by [t]. *)
Variable TreeBuilder : Type.
Variable get_next_possible_ids : TreeBuilder -> list nat.
Variable add_id : TreeBuilder -> nat -> TreeBuilder * ChangeStatus.
(** [LineBreaker.get_num_newline_nodes()] *)
Variable num_newline_nodes : nat.

(** The loop of [_preprocess_log_probs] over
    [enumerate(self._tree_builders)]; the writes land in the caller's
    tensor, also when a later row raises. *)
Fixpoint mask_rows (row_mask : option nat) (row_id : nat)
    (tbs : list TreeBuilder) (log_probs : Tensor) : Tensor * option Exn :=
  match tbs with
  | [] => (log_probs, None)
  | tb :: rest =>
      let possible_ids := get_next_possible_ids tb in
      match row_mask with
      | None => (log_probs, Some TypeError)
      | Some n =>
          if negb (forallb (fun i => i <? n) possible_ids)
          then (log_probs, Some IndexError)
          else if negb ((n =? t_cols log_probs) && (row_id <? t_rows log_probs))
          then (log_probs, Some IndexError)
          else mask_rows row_mask (S row_id) rest
                 (mask_row log_probs row_id possible_ids)
      end
  end.

(** [step] up to the [torch.topk] call: lazy initialisation, the shape
    check, the masking (in the caller's tensor), [log_softmax], the
    addition of the running scores and the flattening.  Returns the
    decoder state, the caller's tensor, and an exception or the flat
    candidate scores. *)
Definition step_front (bs : BeamSearch TreeBuilder) (log_probs : Tensor)
  : BeamSearch TreeBuilder * Tensor * (Exn + list ext) :=
  let init := if bs_is_initialized bs then inr bs else init_state bs log_probs in
  match init with
  | inl e => (bs, log_probs, inl e)
  | inr bs1 =>
      if negb (step_check bs1 log_probs) then (bs1, log_probs, inl AssertionError)
      else
        let '(lp1, err) := mask_rows (bs_row_mask bs1) 0 (bs_tree_builders bs1) log_probs in
        match err with
        | Some e => (bs1, lp1, inl e)
        | None =>
            match bs_scores bs1 with
            | None => (bs1, lp1, inl TypeError)
            | Some s => (bs1, lp1, inr (flatten (add_scores (log_softmax lp1) s)))
            end
        end
  end.

(** [k] of the [torch.topk] call. *)
Definition topk_k (bs : BeamSearch TreeBuilder) : nat :=
  (1 + num_newline_nodes) * bs_beam_size bs.

(** [BeamSearch._save_terminated] *)
Definition save_terminated (hyps : option (list (list nat))) (hyp_ind sample_ind : nat)
    (score : ext) (tb : TreeBuilder) (d : Draft TreeBuilder)
  : Draft TreeBuilder + Exn :=
  match hyps with
  | None => inr TypeError
  | Some hs =>
      match nth_error hs hyp_ind with
      | None => inr IndexError
      | Some hyp_inds =>
          inl (mkDraft (d_samples d) (d_tree_builders d) (d_sort_mask d)
                 (d_sample_scores d)
                 (d_terminated d ++ [mkHypothesis (hyp_inds ++ [sample_ind]) tb score true]))
      end
  end.

(** The [for ind, score in zip(sorted_inds, sorted_scores)] loop of
    [_step], over the candidates in the order [torch.topk] returned them. *)
Fixpoint dispatch (vocab_size beam_size : nat) (tbs : list TreeBuilder)
    (hyps : option (list (list nat))) (cands : list (nat * ext))
    (d : Draft TreeBuilder) : Draft TreeBuilder * option Exn :=
  match cands with
  | [] => (d, None)
  | (ind, score) :: rest =>
      if is_nan score then (d, None)
      else if vocab_size =? 0 then (d, Some ZeroDivisionError)
      else
        let hyp_ind := ind / vocab_size in
        let token_ind := ind mod vocab_size in
        match nth_error tbs hyp_ind with
        | None => (d, Some IndexError)
        | Some tb0 =>
            let '(tb, change_status) := add_id tb0 token_ind in
            let r :=
              match change_status with
              | END_LINE => save_terminated hyps hyp_ind token_ind score tb d
              | NOT_END_LINE =>
                  inl (mkDraft (d_samples d ++ [token_ind])
                         (d_tree_builders d ++ [tb])
                         (d_sort_mask d ++ [hyp_ind])
                         (d_sample_scores d ++ [score])
                         (d_terminated d))
              end in
            match r with
            | inr e => (d, Some e)
            | inl d' =>
                if length (d_samples d') =? beam_size then (d', None)
                else dispatch vocab_size beam_size tbs hyps rest d'
            end
        end
  end.

(** [BeamSearch._update_state]: the first four assignments happen
    before the gather, which may raise. *)
Definition update_state (bs : BeamSearch TreeBuilder) (d : Draft TreeBuilder)
  : BeamSearch TreeBuilder * option Exn :=
  let bs1 :=
    {| bs_vocab_size := bs_vocab_size bs; bs_beam_size := bs_beam_size bs;
       bs_length := bs_length bs;
       bs_terminated_hypotheses := bs_terminated_hypotheses bs;
       bs_scores := Some (d_sample_scores d); bs_hypotheses := bs_hypotheses bs;
       bs_samples := Some (d_samples d); bs_sort_mask := Some (d_sort_mask d);
       bs_row_mask := bs_row_mask bs; bs_tree_builders := d_tree_builders d;
       bs_is_initialized := bs_is_initialized bs |} in
  match bs_hypotheses bs with
  | None => (bs1, Some TypeError)
  | Some hs =>
      match gather hs (d_sort_mask d) with
      | None => (bs1, Some IndexError)
      | Some rows =>
          ({| bs_vocab_size := bs_vocab_size bs; bs_beam_size := bs_beam_size bs;
              bs_length := bs_length bs;
              bs_terminated_hypotheses := bs_terminated_hypotheses bs;
              bs_scores := Some (d_sample_scores d);
              bs_hypotheses := Some (map (fun '(r, s) => r ++ [s])
                                       (combine rows (d_samples d)));
              bs_samples := Some (d_samples d); bs_sort_mask := Some (d_sort_mask d);
              bs_row_mask := bs_row_mask bs; bs_tree_builders := d_tree_builders d;
              bs_is_initialized := bs_is_initialized bs |}, None)
      end
  end.

Definition incr_length (bs : BeamSearch TreeBuilder) : BeamSearch TreeBuilder :=
  {| bs_vocab_size := bs_vocab_size bs; bs_beam_size := bs_beam_size bs;
     bs_length := S (bs_length bs);
     bs_terminated_hypotheses := bs_terminated_hypotheses bs;
     bs_scores := bs_scores bs; bs_hypotheses := bs_hypotheses bs;
     bs_samples := bs_samples bs; bs_sort_mask := bs_sort_mask bs;
     bs_row_mask := bs_row_mask bs; bs_tree_builders := bs_tree_builders bs;
     bs_is_initialized := bs_is_initialized bs |}.

(** [_step] after [torch.topk], given the candidates it returned.  The
    underflow [print] has no effect on the state. *)
Definition step_back (bs : BeamSearch TreeBuilder) (cands : list (nat * ext))
  : BeamSearch TreeBuilder * Outcome :=
  let d0 := mkDraft [] [] [] [] (bs_terminated_hypotheses bs) in
  let '(d, err) := dispatch (bs_vocab_size bs) (bs_beam_size bs)
                     (bs_tree_builders bs) (bs_hypotheses bs) cands d0 in
  let bs1 := set_terminated (d_terminated d) bs in
  match err with
  | Some e => (bs1, Raised e)
  | None =>
      match d_samples d with
      | [] => (bs1, Returned None)
      | _ :: _ =>
          match update_state bs1 d with
          | (bs2, Some e) => (bs2, Raised e)
          | (bs2, None) => (incr_length bs2, Returned (bs_sort_mask bs2))
          end
      end
  end.

(** The contract of [torch.topk(flat, k, sorted=False)]: [k] distinct
    positions holding values no smaller than any position left out, in
    an unspecified order. *)
Definition is_topk (k : nat) (flat : list ext) (sel : list (nat * ext)) : Prop :=
  length sel = k /\ NoDup (map fst sel) /\
  (forall i v, In (i, v) sel -> nth_error flat i = Some v) /\
  (forall i v j w, In (i, v) sel -> nth_error flat j = Some w ->
                   ~ In j (map fst sel) -> ext_le w v).

(** [BeamSearch.step(log_probs)]: [Step bs lp sel bs' lp' out] when the
    call, with [torch.topk] returning [sel], leaves the decoder in [bs'],
    the caller's tensor as [lp'] and ends with [out]. *)
Inductive Step (bs : BeamSearch TreeBuilder) (lp : Tensor) (sel : list (nat * ext))
  : BeamSearch TreeBuilder -> Tensor -> Outcome -> Prop :=
| Step_front_raises bs1 lp1 e :
    step_front bs lp = (bs1, lp1, inl e) ->
    Step bs lp sel bs1 lp1 (Raised e)
| Step_topk_raises bs1 lp1 flat :
    step_front bs lp = (bs1, lp1, inr flat) ->
    length flat < topk_k bs1 ->
    Step bs lp sel bs1 lp1 (Raised RuntimeError)
| Step_run bs1 lp1 flat bs2 out :
    step_front bs lp = (bs1, lp1, inr flat) ->
    is_topk (topk_k bs1) flat sel ->
    step_back bs1 sel = (bs2, out) ->
    Step bs lp sel bs2 lp1 out.

(** A sequence of [step] calls. *)
Inductive Steps : BeamSearch TreeBuilder -> BeamSearch TreeBuilder -> Prop :=
| Steps_refl bs : Steps bs bs
| Steps_step bs lp sel bs1 lp1 out bs2 :
    Step bs lp sel bs1 lp1 out -> Steps bs1 bs2 -> Steps bs bs2.

End Decoder.

Arguments mask_rows {TreeBuilder}.
Arguments step_front {TreeBuilder}.
Arguments topk_k {TreeBuilder}.
Arguments save_terminated {TreeBuilder}.
Arguments dispatch {TreeBuilder}.
Arguments update_state {TreeBuilder}.
Arguments incr_length {TreeBuilder}.
Arguments step_back {TreeBuilder}.
Arguments Step {TreeBuilder}.
Arguments Steps {TreeBuilder}.

(** The parallel lists of the scan stay aligned, every sort-mask entry
    is a row of the flattened matrix, and at most [beam_size]
    continuing samples are drafted. *)
Definition draft_shape {TB} (rows : nat) (d : Draft TB) : Prop :=
  length (d_sort_mask d) = length (d_samples d) /\
  length (d_sample_scores d) = length (d_samples d) /\
  length (d_tree_builders d) = length (d_samples d) /\
  Forall (fun x => x < rows) (d_sort_mask d).


(** ** Concrete inputs *)

(** A tensor given by its rows. *)
Definition tensor_of_rows (cols : nat) (rows : list (list ext)) : Tensor :=
  mkTensor (length rows) cols (fun i j => nth j (nth i rows []) NaN).

(** Modelled from the spec: concrete tree builders over [unit] that
    report a fixed set of legal next ids, and whose advance reports
    "sequence complete" ([END_LINE]) exactly for the ids in [ends]. *)
Definition fixed_possible_ids (legal : list nat) (_ : unit) : list nat := legal.

Definition fixed_add_id (ends : list nat) (u : unit) (t : nat) : unit * ChangeStatus :=
  (u, if existsb (Nat.eqb t) ends then END_LINE else NOT_END_LINE).

(** The first-step scores of the spec's scenario: vocabulary 4, one row. *)
Definition scenario_log_probs : Tensor :=
  tensor_of_rows 4 [[Fin (-0.1); Fin (-2); Fin (-0.05); Fin (-3)]].

(** A decoder with vocabulary 4 and beam size 2, before its first step. *)
Definition decoder_4_2 : BeamSearch unit := new_BeamSearch 4 2 tt.

(** The flattened scores [step] hands to [torch.topk] ([[]] when the call
    raises before). *)
Definition front_scores {TB} (gp : TB -> list nat) (bs : BeamSearch TB)
    (lp : Tensor) : list ext :=
  match step_front gp bs lp with
  | (_, _, inr flat) => flat
  | _ => []
  end.

(** The candidates of [flat] at the indices [ord], in that order: a
    possible result of [torch.topk(..., sorted=False)]. *)
Definition select_at (flat : list ext) (ord : list nat) : list (nat * ext) :=
  map (fun i => (i, nth i flat NaN)) ord.

(** ** Reachable decoder states *)

(** A running log-probability score: [-inf], or finite and at most 0. *)
Definition nonpos_score (x : ext) : Prop :=
  match x with
  | NegInf => True
  | Fin r => (r <= 0)%R
  | _ => False
  end.

(** What every state reachable from [BeamSearch(vocab_size, beam_size, _)]
    satisfies: the sizes stay fixed, every terminated hypothesis is
    flagged terminated and has a running score; before the first call the
    state is the constructed one, afterwards the hypotheses tensor, the
    scores and the tree builders have one (aligned) entry per active
    hypothesis, at least one and at most [max 1 beam_size], each
    hypothesis holds [_length - 1] tokens, and every running score is
    [-inf] or at most 0. *)
Definition beam_inv {TB} (V B : nat) (bs : BeamSearch TB) : Prop :=
  bs_vocab_size bs = V /\ bs_beam_size bs = B /\ 1 <= bs_length bs /\
  Forall (fun h => is_terminated h = true /\ nonpos_score (score h))
    (bs_terminated_hypotheses bs) /\
  if bs_is_initialized bs then
    exists hs ss,
      bs_hypotheses bs = Some hs /\ bs_scores bs = Some ss /\
      length hs = length ss /\ length (bs_tree_builders bs) = length ss /\
      1 <= length ss /\ length ss <= Nat.max 1 B /\
      Forall (fun r => length r + 1 = bs_length bs) hs /\
      Forall nonpos_score ss
  else
    bs_scores bs = None /\ bs_hypotheses bs = None /\
    length (bs_tree_builders bs) = 1 /\ bs_length bs = 1.

(** [BeamSearch.last_predictions]: the assertion that the hypotheses
    tensor exists and has a column, then its last column
    [self._hypotheses[:, -1]].  The number of columns is read off the
    first row; the tensor has at least one row in every reachable state
    ([beam_inv]). *)
Definition last_predictions {TB} (bs : BeamSearch TB) : Exn + list nat :=
  match bs_hypotheses bs with
  | None => inl AssertionError
  | Some [] => inl AssertionError
  | Some ((r :: _) as hs) =>
      if length r =? 0 then inl AssertionError
      else inr (map (fun row => last row 0) hs)
  end.

(** ** [evaluate_predictions.py] *)

Module EvaluatePredictions.

(** The exceptions the evaluation code raises. *)
Inductive Exn : Type :=
| ValueError
| ZeroDivisionError.

(** Modelled from the spec: the persisted prediction records of
    [produce_predictions] (not under src/): a target string and a list of
    (generated string, raw score, length) hypotheses.  Strings are lists
    of Unicode code points; scores are finite floats. *)
Record TextHypothesis := mkTextHypothesis {
  prediction : list nat;
  score : R;
  length_ : nat
}.

Record Prediction := mkPrediction {
  hypotheses : list TextHypothesis;
  target : list nat
}.

(** [editdistance.eval(a, b)] (a library call): the Levenshtein distance,
    the least number of one-element insertions, deletions and
    substitutions turning [a] into [b]. *)
Fixpoint levenshtein (a b : list nat) : nat :=
  match a with
  | [] => List.length b
  | x :: a' =>
      (fix lev_b (b : list nat) : nat :=
         match b with
         | [] => List.length a
         | y :: b' =>
             Nat.min (S (levenshtein a' b))
               (Nat.min (S (lev_b b'))
                  (levenshtein a' b' + (if x =? y then 0 else 1)))
         end) b
  end.

(** [s.replace(" ", "")] *)
Definition remove_spaces (s : list nat) : list nat :=
  filter (fun c => negb (c =? 32)) s.

(** [edit_similarity(a, b)] *)
Definition edit_similarity (a b : list nat) : Exn + R :=
  let a := remove_spaces a in
  let b := remove_spaces b in
  let dist := levenshtein a b in
  let m := Nat.max (List.length a) (List.length b) in
  if m =? 0 then inl ZeroDivisionError
  else inr ((1 - INR dist / INR m) * 100)%R.

(** One insertion step of the stable sort [sorted(..., reverse=True)]
    computes: [x] goes before the first element whose key is not larger. *)
Fixpoint insert_desc {A} (key : A -> R) (x : A) (l : list A) : list A :=
  match l with
  | [] => [x]
  | y :: l' => if Rlt_dec (key x) (key y) then y :: insert_desc key x l' else x :: l
  end.

(** [sorted(l, key=key, reverse=True)]: descending by key, elements with
    equal keys in their input order. *)
Definition sorted_desc {A} (key : A -> R) (l : list A) : list A :=
  fold_right (insert_desc key) [] l.

(** [l[:k]] for an int [k]; a negative [k] counts from the end. *)
Definition slice_upto {A} (l : list A) (k : Z) : list A :=
  if (k <? 0)%Z then firstn (List.length l - Z.to_nat (- k)) l
  else firstn (Z.to_nat k) l.

(** The ranking key of [get_top_k]. *)
Definition rank_key (self : PredictionPostprocessor.t) (h : TextHypothesis) : R :=
  PredictionPostprocessor.normalize_score self (length_ h) (score h).

(** [PredictionPostprocessor.get_top_k] *)
Definition get_top_k (self : PredictionPostprocessor.t) (p : Prediction) (k : Z)
  : list TextHypothesis :=
  slice_upto (sorted_desc (rank_key self) (hypotheses p)) k.

(** [max(edit_similarity(h.prediction, target) for h in hyps)]: the
    generator is consumed in order, so the first failing similarity
    raises; an empty one makes [max] raise [ValueError]. *)
Fixpoint max_similarity (hyps : list TextHypothesis) (target : list nat) : Exn + R :=
  match hyps with
  | [] => inl ValueError
  | h :: rest =>
      match edit_similarity (prediction h) target with
      | inl e => inl e
      | inr x =>
          match rest with
          | [] => inr x
          | _ :: _ =>
              match max_similarity rest target with
              | inl e => inl e
              | inr y => inr (Rmax x y)
              end
          end
      end
  end.

(** The score [evaluate] records for one prediction at one [k]. *)
Definition prediction_score (self : PredictionPostprocessor.t) (p : Prediction) (k : Z)
  : Exn + R :=
  max_similarity (get_top_k self p k) (target p).

(** Concrete inputs: [PredictionPostprocessor(10, 0.7)], a prediction
    with the two hypotheses "ab" and "ac" for the target "ab", and one
    with the single hypothesis "a b" for the target "ac". *)
Definition pp_10_07 : PredictionPostprocessor.t := PredictionPostprocessor.mk 10 0.7.

Definition two_hypotheses : Prediction :=
  mkPrediction [mkTextHypothesis [97; 98] (-1) 2; mkTextHypothesis [97; 99] (-2) 3]
    [97; 98].

Definition one_hypothesis : Prediction :=
  mkPrediction [mkTextHypothesis [97; 32; 98] (-1) 2] [97; 99].

(** A prediction for the target "ab" whose better-scored hypothesis "ac"
    (raw score [-1]) is the worse match; "ab" has raw score [-2]; both
    have length 2. *)
Definition reranked_hypotheses : Prediction :=
  mkPrediction [mkTextHypothesis [97; 99] (-1) 2; mkTextHypothesis [97; 98] (-2) 2]
    [97; 98].

End EvaluatePredictions.

(** ** Facts about the length normalisation *)

Lemma norm_factor_pos (b : R) (n : nat) (p : R) :
  (0 < b)%R -> (0 < norm_factor b n p)%R.
Proof.
  intros Hb. unfold norm_factor, pypow, Rpower. apply exp_pos.
Qed.

Lemma norm_factor_length_1 (b p : R) :
  (0 < b)%R -> norm_factor b 1 p = 1%R.
Proof.
  intros Hb. unfold norm_factor, pypow. simpl INR.
  replace ((b + 1) / (b + 1))%R with 1%R by (field; lra).
  unfold Rpower. rewrite ln_1, Rmult_0_r. apply exp_0.
Qed.

Lemma norm_factor_lt (b p : R) (n m : nat) :
  (0 < b)%R -> (0 < p)%R -> (n < m)%nat ->
  (norm_factor b n p < norm_factor b m p)%R.
Proof.
  intros Hb Hp Hnm. unfold norm_factor, pypow.
  apply lt_INR in Hnm. pose proof (pos_INR n).
  apply Rlt_Rpower_l; [exact Hp|]. split.
  - apply Rdiv_lt_0_compat; lra.
  - unfold Rdiv. apply Rmult_lt_compat_r; [apply Rinv_0_lt_compat; lra | lra].
Qed.

(** For a negative raw score, a longer hypothesis gets a larger
    normalised score. *)
Lemma normalized_exp_lt (r b p : R) (n m : nat) :
  (r < 0)%R -> (0 < b)%R -> (0 < p)%R -> (n < m)%nat ->
  (exp (r / norm_factor b n p) < exp (r / norm_factor b m p))%R.
Proof.
  intros Hr Hb Hp Hnm. apply exp_increasing.
  pose proof (norm_factor_pos b n p Hb) as Hn.
  pose proof (norm_factor_pos b m p Hb) as Hm.
  pose proof (norm_factor_lt b p n m Hb Hp Hnm) as Hlt.
  unfold Rdiv. apply Rmult_lt_gt_compat_neg_l; [exact Hr|].
  apply Rinv_lt_contravar; [nra | exact Hlt].
Qed.


(** * Claims *)

(** ** Length normalisation *)

Section LengthNormalisation.
Local Open Scope R_scope.

(** C3 (counterexample): the evaluation-time [_normalize_score] does not
  return [exp(raw_score / norm_factor)]: with base 10, pow 0.7, length 1
  and raw score -1 it returns -1, while the formula gives [exp(-1)]. *)
Lemma C3_evaluator_has_no_exp :
PredictionPostprocessor.normalize_score (PredictionPostprocessor.mk 10 0.7) 1 (-1)
<> exp (-1 / norm_factor 10 1 0.7).
Proof.
unfold PredictionPostprocessor.normalize_score; simpl.
rewrite norm_factor_length_1 by lra.
pose proof (exp_pos (-1 / 1)). intro Heq. rewrite <- Heq in H.
unfold Rdiv in H. rewrite Rinv_1 in H. lra.
Qed.

(** C3 (amended): the decoder's [Hypothesis.get_normalized_score] is
  [exp(raw_score / (((base + length) / (base + 1)) ** pow))]; the
  evaluation-time [_normalize_score] is [raw_score / norm_factor]
  without the exponential, and ranks two hypotheses in the same order
  as that formula. *)
Theorem C3_normalized_score_formula :
(forall (TB : Type) (h : Hypothesis_ TB) (b p s : R),
    score h = Fin s ->
    get_normalized_score h b p = Fin (exp (s / norm_factor b (length (ids h)) p)))
/\
(forall (pp : PredictionPostprocessor.t) (l1 l2 : nat) (s1 s2 : R),
    PredictionPostprocessor.normalize_score pp l1 s1
      = (s1 / norm_factor (PredictionPostprocessor.len_norm_base pp) l1
                (PredictionPostprocessor.len_norm_pow pp))%R
    /\
    ((PredictionPostprocessor.normalize_score pp l1 s1
       < PredictionPostprocessor.normalize_score pp l2 s2)%R
     <->
     (exp (s1 / norm_factor (PredictionPostprocessor.len_norm_base pp) l1
                 (PredictionPostprocessor.len_norm_pow pp))
     < exp (s2 / norm_factor (PredictionPostprocessor.len_norm_base pp) l2
                   (PredictionPostprocessor.len_norm_pow pp)))%R)).
Proof.
split.
- intros TB h b p s Hs. unfold get_normalized_score. rewrite Hs. reflexivity.
- intros pp l1 l2 s1 s2. split; [reflexivity|].
  unfold PredictionPostprocessor.normalize_score. split.
  + apply exp_increasing.
  + apply exp_lt_inv.
Qed.

Lemma C3_normalized_score_formula_witness :
get_normalized_score (mkHypothesis [0%nat] tt (Fin (-1)) true) 5 0.7
= Fin (exp (-1 / norm_factor 5 1 0.7)).
Proof.
apply (proj1 C3_normalized_score_formula unit
         (mkHypothesis [0%nat] tt (Fin (-1)) true) 5 0.7 (-1)).
reflexivity.
Defined.

(** C9 (counterexample): with the default base 5 and pow 0.7 and raw
  score -1, the normalised score of a length-2 hypothesis is larger than
  that of a length-1 hypothesis, so it is not decreasing in length. *)
Lemma C9_not_decreasing_in_length :
~ (forall (h1 h2 : Hypothesis_ unit) (x1 x2 : R),
      score h1 = Fin (-1) -> score h2 = Fin (-1) ->
      (length (ids h1) < length (ids h2))%nat ->
      get_normalized_score h1 default_len_norm_base default_len_norm_pow = Fin x1 ->
      get_normalized_score h2 default_len_norm_base default_len_norm_pow = Fin x2 ->
      (x2 < x1)%R).
Proof.
intro H.
specialize (H (mkHypothesis [0%nat] tt (Fin (-1)) false)
              (mkHypothesis [0%nat; 0%nat] tt (Fin (-1)) false)
              (exp (-1 / norm_factor default_len_norm_base 1 default_len_norm_pow))
              (exp (-1 / norm_factor default_len_norm_base 2 default_len_norm_pow))
              eq_refl eq_refl ltac:(simpl; lia) eq_refl eq_refl).
pose proof (normalized_exp_lt (-1) default_len_norm_base default_len_norm_pow 1 2
              ltac:(lra) ltac:(unfold default_len_norm_base; lra)
              ltac:(unfold default_len_norm_pow; lra) ltac:(lia)).
lra.
Qed.

(** C9 (amended): for a negative raw score, [base > 0] and [pow > 0], the
  normalised score is strictly increasing in the length; at length 1 the
  normalisation factor is 1 and the normalised score is [exp(raw_score)]. *)
Theorem C9_normalized_score_length :
forall (TB : Type) (r b p : R),
  (0 < b)%R ->
  ((r < 0)%R -> (0 < p)%R ->
   forall h1 h2 : Hypothesis_ TB,
     score h1 = Fin r -> score h2 = Fin r ->
     (length (ids h1) < length (ids h2))%nat ->
     exists x1 x2, get_normalized_score h1 b p = Fin x1 /\
                   get_normalized_score h2 b p = Fin x2 /\ (x1 < x2)%R)
  /\
  (forall h : Hypothesis_ TB,
     length (ids h) = 1%nat -> score h = Fin r ->
     norm_factor b (length (ids h)) p = 1%R /\
     get_normalized_score h b p = Fin (exp r)).
Proof.
intros TB r b p Hb. split.
- intros Hr Hp h1 h2 H1 H2 Hlen.
  unfold get_normalized_score. rewrite H1, H2.
  do 2 eexists. split; [reflexivity|]. split; [reflexivity|].
  apply normalized_exp_lt; assumption.
- intros h Hl Hs. rewrite Hl, norm_factor_length_1 by exact Hb. split; [reflexivity|].
  unfold get_normalized_score. rewrite Hs, Hl, norm_factor_length_1 by exact Hb.
  unfold Rdiv. rewrite Rinv_1, Rmult_1_r. reflexivity.
Qed.

Lemma C9_normalized_score_length_witness :
get_normalized_score (mkHypothesis [7%nat] tt (Fin (-2)) true) 5 0.7 = Fin (exp (-2)).
Proof.
apply (proj2 (C9_normalized_score_length unit (-2) 5 0.7 ltac:(lra))
         (mkHypothesis [7%nat] tt (Fin (-2)) true) eq_refl eq_refl).
Defined.

End LengthNormalisation.

(** ** Facts about the decoder *)

Lemma length_row_list (t : Tensor) (i : nat) : length (row_list t i) = t_cols t.
Proof. unfold row_list. rewrite length_map, length_seq. reflexivity. Qed.

Lemma length_flatten (t : Tensor) : length (flatten t) = t_rows t * t_cols t.
Proof.
  unfold flatten. rewrite (flat_map_constant_length (c := t_cols t)).
  - rewrite length_seq. reflexivity.
  - intros x _. apply length_row_list.
Qed.

Section DecoderFacts.

Variable TreeBuilder : Type.
Variable get_next_possible_ids : TreeBuilder -> list nat.
Variable add_id : TreeBuilder -> nat -> TreeBuilder * ChangeStatus.
Variable num_newline_nodes : nat.

(** *** Masking *)

Lemma mask_rows_size rm row_id tbs lp lp' err :
  mask_rows get_next_possible_ids rm row_id tbs lp = (lp', err) ->
  t_rows lp' = t_rows lp /\ t_cols lp' = t_cols lp.
Proof.
  revert row_id lp. induction tbs as [|tb rest IH]; intros row_id lp H; simpl in H.
  - inversion H; auto.
  - destruct rm as [n|]; [|inversion H; auto].
    destruct (negb _); [inversion H; auto|].
    destruct (negb _); [inversion H; auto|].
    apply IH in H. simpl in H. exact H.
Qed.

(** The masking only ever writes [-inf]. *)
Lemma mask_rows_only_neginf rm row_id tbs lp lp' err :
  mask_rows get_next_possible_ids rm row_id tbs lp = (lp', err) ->
  forall i j, t_at lp' i j = t_at lp i j \/ t_at lp' i j = NegInf.
Proof.
  revert row_id lp. induction tbs as [|tb rest IH]; intros row_id lp H i j; simpl in H.
  - inversion H; auto.
  - destruct rm as [n|]; [|inversion H; auto].
    destruct (negb _); [inversion H; auto|].
    destruct (negb _); [inversion H; auto|].
    destruct (IH _ _ H i j) as [E|E]; [|auto].
    rewrite E. simpl. destruct (_ && _); auto.
Qed.

Lemma mask_rows_before rm row_id tbs lp lp' err :
  mask_rows get_next_possible_ids rm row_id tbs lp = (lp', err) ->
  forall i j, i < row_id -> t_at lp' i j = t_at lp i j.
Proof.
  revert row_id lp. induction tbs as [|tb rest IH]; intros row_id lp H i j Hi; simpl in H.
  - inversion H; auto.
  - destruct rm as [n|]; [|inversion H; auto].
    destruct (negb _); [inversion H; auto|].
    destruct (negb _); [inversion H; auto|].
    rewrite (IH _ _ H i j ltac:(lia)). simpl.
    replace (i =? row_id) with false by (symmetry; apply Nat.eqb_neq; lia).
    reflexivity.
Qed.

(** A masking loop that went through every tree builder leaves [-inf]
    exactly in the illegal columns of the rows it visited. *)
Lemma mask_rows_complete rm row_id tbs lp lp' :
  mask_rows get_next_possible_ids rm row_id tbs lp = (lp', None) ->
  forall k tb j, nth_error tbs k = Some tb ->
    t_at lp' (row_id + k) j =
    if existsb (Nat.eqb j) (get_next_possible_ids tb)
    then t_at lp (row_id + k) j else NegInf.
Proof.
  revert row_id lp. induction tbs as [|tb0 rest IH]; intros row_id lp H k tb j Hk.
  - destruct k; discriminate.
  - simpl in H.
    destruct rm as [n|]; [|discriminate].
    destruct (negb _); [discriminate|].
    destruct (negb _); [discriminate|].
    destruct k as [|k].
    + simpl in Hk. inversion Hk; subst tb0.
      rewrite Nat.add_0_r.
      rewrite (mask_rows_before _ _ _ _ _ _ H row_id j ltac:(lia)). simpl.
      rewrite Nat.eqb_refl. simpl.
      destruct (existsb _ _); reflexivity.
    + simpl in Hk. replace (row_id + S k) with (S row_id + k) by lia.
      rewrite (IH _ _ H k tb j Hk). unfold mask_row; cbn [t_at].
      replace (S row_id + k =? row_id) with false by (symmetry; apply Nat.eqb_neq; lia).
      reflexivity.
Qed.

(** *** Lazy initialisation and the front of [step] *)

Lemma init_state_fields (bs bs1 : BeamSearch TreeBuilder) lp :
  init_state bs lp = inr bs1 ->
  bs_vocab_size bs1 = bs_vocab_size bs /\ bs_beam_size bs1 = bs_beam_size bs /\
  bs_length bs1 = bs_length bs /\
  bs_terminated_hypotheses bs1 = bs_terminated_hypotheses bs /\
  bs_tree_builders bs1 = bs_tree_builders bs /\
  bs_scores bs = None /\ bs_scores bs1 = Some [Fin 0] /\
  bs_hypotheses bs = None /\ bs_hypotheses bs1 = Some [[]] /\
  bs_sort_mask bs1 = bs_sort_mask bs /\ bs_row_mask bs1 = Some (t_cols lp) /\
  bs_is_initialized bs1 = true /\ batch_size bs1 = batch_size bs.
Proof.
  unfold init_state. destruct (bs_scores bs) eqn:Es; [discriminate|].
  destruct (bs_hypotheses bs) eqn:Eh; [discriminate|].
  intros H; inversion H; subst; unfold batch_size; simpl; rewrite Es.
  repeat split; reflexivity.
Qed.

Lemma step_front_state bs lp bs1 lp1 r :
  step_front get_next_possible_ids bs lp = (bs1, lp1, r) ->
  bs1 = bs \/ (bs_is_initialized bs = false /\ init_state bs lp = inr bs1).
Proof.
  unfold step_front. destruct (bs_is_initialized bs) eqn:Ei.
  - destruct (negb _); [intros H; inversion H; auto|].
    destruct (mask_rows _ _ _ _ _) as [lpm [e|]];
      [intros H; inversion H; auto|].
    destruct (bs_scores bs); intros H; inversion H; auto.
  - destruct (init_state bs lp) as [e|b1] eqn:Ein; [intros H; inversion H; auto|].
    destruct (negb _); [intros H; inversion H; subst; auto|].
    destruct (mask_rows _ _ _ _ _) as [lpm [e|]];
      [intros H; inversion H; subst; auto|].
    destruct (bs_scores b1); intros H; inversion H; subst; auto.
Qed.

Lemma step_front_terminated bs lp bs1 lp1 r :
  step_front get_next_possible_ids bs lp = (bs1, lp1, r) ->
  bs_terminated_hypotheses bs1 = bs_terminated_hypotheses bs /\
  bs_beam_size bs1 = bs_beam_size bs /\ bs_vocab_size bs1 = bs_vocab_size bs /\
  bs_tree_builders bs1 = bs_tree_builders bs /\ bs_length bs1 = bs_length bs /\
  batch_size bs1 = batch_size bs.
Proof.
  intros H. destruct (step_front_state _ _ _ _ _ H) as [->|[_ Hi]].
  - repeat split.
  - apply init_state_fields in Hi. tauto.
Qed.

(** The caller's tensor after [step]: untouched, or the output of the
    masking loop. *)
Lemma step_front_caller bs lp bs1 lp1 r :
  step_front get_next_possible_ids bs lp = (bs1, lp1, r) ->
  lp1 = lp \/
  (step_check bs1 lp = true /\
   exists err, mask_rows get_next_possible_ids (bs_row_mask bs1) 0
                 (bs_tree_builders bs1) lp = (lp1, err) /\
               (r = inl TypeError \/ err <> None \/ exists f, r = inr f) /\
               (err <> None -> exists e, r = inl e)).
Proof.
  unfold step_front.
  destruct (if bs_is_initialized bs then inr bs else init_state bs lp) as [e|b1].
  - intros H; inversion H; auto.
  - destruct (step_check b1 lp) eqn:Ec; simpl; [|intros H; inversion H; auto].
    destruct (mask_rows _ _ _ _ _) as [lpm err] eqn:Em.
    destruct err as [e|].
    + intros H; inversion H; subst. right. split; [assumption|].
      exists (Some e). split; [exact Em|]. split; [right; left; discriminate|].
      intros _. eauto.
    + destruct (bs_scores b1); intros H; inversion H; subst; right;
        (split; [assumption|]); exists None; (split; [exact Em|]);
        (split; [eauto|]); intros C; congruence.
Qed.

Lemma step_front_ok bs lp bs1 lp1 flat :
  step_front get_next_possible_ids bs lp = (bs1, lp1, inr flat) ->
  step_check bs1 lp = true /\
  mask_rows get_next_possible_ids (bs_row_mask bs1) 0 (bs_tree_builders bs1) lp
    = (lp1, None) /\
  exists s, bs_scores bs1 = Some s /\ flat = flatten (add_scores (log_softmax lp1) s).
Proof.
  unfold step_front.
  destruct (if bs_is_initialized bs then inr bs else init_state bs lp) as [e|b1];
    [intros H; inversion H|].
  destruct (step_check b1 lp) eqn:Ec; simpl; [|intros H; inversion H].
  destruct (mask_rows _ _ _ _ _) as [lpm err] eqn:Em.
  destruct err as [e|]; [intros H; inversion H|].
  destruct (bs_scores b1) as [s|] eqn:Es; intros H; inversion H; subst.
  eauto.
Qed.

Lemma step_front_flat_length bs lp bs1 lp1 flat :
  step_front get_next_possible_ids bs lp = (bs1, lp1, inr flat) ->
  length flat = batch_size bs * bs_vocab_size bs.
Proof.
  intros H. pose proof (step_front_terminated _ _ _ _ _ H) as (_ & _ & Hv & _ & _ & Hb).
  destruct (step_front_ok _ _ _ _ _ H) as (Hc & Hm & s & _ & ->).
  apply mask_rows_size in Hm. destruct Hm as [Hr Hcol].
  unfold step_check in Hc. apply andb_true_iff in Hc as [Hc1 Hc2].
  apply Nat.eqb_eq in Hc1, Hc2.
  rewrite length_flatten. simpl. rewrite Hr, Hcol, Hc1, Hc2, Hb, Hv. reflexivity.
Qed.

(** *** The candidate scan *)

Lemma save_terminated_draft hyps hyp_ind sample_ind sc tb (d d' : Draft TreeBuilder) :
  save_terminated hyps hyp_ind sample_ind sc tb d = inl d' ->
  exists parent, hyps <> None /\
    (forall hs, hyps = Some hs -> nth_error hs hyp_ind = Some parent) /\
    d' = mkDraft (d_samples d) (d_tree_builders d) (d_sort_mask d) (d_sample_scores d)
           (d_terminated d ++ [mkHypothesis (parent ++ [sample_ind]) tb sc true]).
Proof.
  unfold save_terminated. destruct hyps as [hs|]; [|discriminate].
  destruct (nth_error hs hyp_ind) as [p|] eqn:E; [|discriminate].
  intros H; inversion H; subst. exists p. split; [discriminate|].
  split; [intros hs' Hs; inversion Hs; subst; exact E | reflexivity].
Qed.

(** [self._terminated_hypotheses] is only appended to. *)
Lemma dispatch_terminated_grows V B tbs hyps cands (d d' : Draft TreeBuilder) err :
  dispatch add_id V B tbs hyps cands d = (d', err) ->
  exists suffix, d_terminated d' = d_terminated d ++ suffix.
Proof.
  revert d. induction cands as [|[ind sc] rest IH]; intros d H; simpl in H.
  - inversion H; subst. exists []. rewrite app_nil_r. reflexivity.
  - destruct (is_nan sc); [inversion H; subst; exists []; rewrite app_nil_r; reflexivity|].
    destruct (V =? 0); [inversion H; subst; exists []; rewrite app_nil_r; reflexivity|].
    destruct (nth_error tbs (ind / V)) as [tb0|];
      [|inversion H; subst; exists []; rewrite app_nil_r; reflexivity].
    destruct (add_id tb0 (ind mod V)) as [tb cs].
    assert (Hstep : forall d1 : Draft TreeBuilder,
               (d_terminated d1 = d_terminated d \/
                exists h, d_terminated d1 = d_terminated d ++ [h]) ->
               (if length (d_samples d1) =? B then (d1, None)
                else dispatch add_id V B tbs hyps rest d1) = (d', err) ->
               exists suffix, d_terminated d' = d_terminated d ++ suffix).
    { intros d1 Hd1 H1. destruct (length (d_samples d1) =? B).
      - inversion H1; subst. destruct Hd1 as [E|[h E]]; rewrite E.
        + exists []. rewrite app_nil_r. reflexivity.
        + eauto.
      - destruct (IH d1 H1) as [suf Hs]. rewrite Hs.
        destruct Hd1 as [E|[h E]]; rewrite E.
        + eauto.
        + exists (h :: suf). rewrite <- app_assoc. reflexivity. }
    destruct cs.
    + destruct (save_terminated hyps (ind / V) (ind mod V) sc tb d) as [d1|e] eqn:Es.
      * apply save_terminated_draft in Es as (p & _ & _ & ->).
        refine (Hstep _ _ H). right; eexists; reflexivity.
      * inversion H; subst. exists []. rewrite app_nil_r. reflexivity.
    + refine (Hstep _ _ H). left; reflexivity.
Qed.

(** Nothing at or after a NaN candidate is looked at. *)
Lemma dispatch_nan_cut V B tbs hyps pre i post (d : Draft TreeBuilder) :
  dispatch add_id V B tbs hyps (pre ++ (i, NaN) :: post) d =
  dispatch add_id V B tbs hyps pre d.
Proof.
  revert d. induction pre as [|[ind sc] rest IH]; intros d; simpl.
  - reflexivity.
  - destruct (is_nan sc); [reflexivity|].
    destruct (V =? 0); [reflexivity|].
    destruct (nth_error tbs (ind / V)); [|reflexivity].
    destruct (add_id _ _) as [tb cs].
    destruct (match cs with END_LINE => _ | NOT_END_LINE => _ end) as [d1|e];
      [|reflexivity].
    destruct (length (d_samples d1) =? B); [reflexivity|].
    apply IH.
Qed.

Lemma dispatch_shape V B rows tbs hyps cands (d d' : Draft TreeBuilder) err :
  (forall i v, In (i, v) cands -> i < rows * V) ->
  length (d_samples d) < B ->
  draft_shape rows d ->
  dispatch add_id V B tbs hyps cands d = (d', err) ->
  draft_shape rows d' /\ length (d_samples d') <= B.
Proof.
  revert d. induction cands as [|[ind sc] rest IH]; intros d Hin HB Hs H; simpl in H.
  - inversion H; subst. split; [exact Hs | lia].
  - destruct (is_nan sc); [inversion H; subst; split; [exact Hs | lia]|].
    destruct (V =? 0) eqn:EV; [inversion H; subst; split; [exact Hs | lia]|].
    apply Nat.eqb_neq in EV.
    destruct (nth_error tbs (ind / V)) as [tb0|];
      [|inversion H; subst; split; [exact Hs | lia]].
    destruct (add_id tb0 (ind mod V)) as [tb cs].
    assert (Hstep : forall d1 : Draft TreeBuilder,
               draft_shape rows d1 -> length (d_samples d1) <= B ->
               (if length (d_samples d1) =? B then (d1, None)
                else dispatch add_id V B tbs hyps rest d1) = (d', err) ->
               draft_shape rows d' /\ length (d_samples d') <= B).
    { intros d1 Hs1 HB1 H1. destruct (length (d_samples d1) =? B) eqn:EB.
      - inversion H1; subst. auto.
      - apply Nat.eqb_neq in EB.
        apply (IH d1); [intros i v Hi; apply (Hin i v); right; exact Hi | lia | exact Hs1 | exact H1]. }
    destruct cs.
    + destruct (save_terminated hyps (ind / V) (ind mod V) sc tb d) as [d1|e] eqn:Es.
      * apply save_terminated_draft in Es as (p & _ & _ & ->).
        refine (Hstep _ _ _ H); [exact Hs | simpl; lia].
      * inversion H; subst. split; [exact Hs | lia].
    + refine (Hstep _ _ _ H); [| simpl; rewrite length_app; simpl; lia].
      destruct Hs as (H1 & H2 & H3 & H4). unfold draft_shape; simpl.
      rewrite !length_app; simpl. repeat split; try lia.
      apply Forall_app. split; [exact H4|]. constructor; [|constructor].
      apply Nat.Div0.div_lt_upper_bound.
      rewrite Nat.mul_comm. apply (Hin ind sc). left; reflexivity.
Qed.

(** *** The back of [step] *)

Lemma step_back_returned bs sel bs2 r :
  step_back add_id bs sel = (bs2, Returned r) ->
  exists d, dispatch add_id (bs_vocab_size bs) (bs_beam_size bs) (bs_tree_builders bs)
              (bs_hypotheses bs) sel
              (mkDraft [] [] [] [] (bs_terminated_hypotheses bs)) = (d, None) /\
    ((d_samples d = [] /\ r = None /\ bs2 = set_terminated (d_terminated d) bs) \/
     (d_samples d <> [] /\ r = Some (d_sort_mask d) /\
      bs_scores bs2 = Some (d_sample_scores d) /\
      bs_beam_size bs2 = bs_beam_size bs /\
      bs_samples bs2 = Some (d_samples d) /\
      bs_terminated_hypotheses bs2 = d_terminated d /\
      bs_tree_builders bs2 = d_tree_builders d /\
      bs_hypotheses bs <> None /\
      (forall hs, bs_hypotheses bs = Some hs ->
         exists rows, gather hs (d_sort_mask d) = Some rows /\
           bs_hypotheses bs2 = Some (map (fun '(r0, s0) => r0 ++ [s0])
                                       (combine rows (d_samples d)))))).
Proof.
  unfold step_back. intros H.
  destruct (dispatch _ _ _ _ _ _ _) as [d [e|]] eqn:Ed; [inversion H|].
  exists d. split; [reflexivity|].
  destruct (d_samples d) as [|x xs] eqn:Es.
  - inversion H; subst. left. auto.
  - revert H. unfold update_state. cbn [bs_hypotheses set_terminated].
    destruct (bs_hypotheses bs) as [hs|] eqn:Eh; [|intros Hb; inversion Hb].
    destruct (gather hs (d_sort_mask d)) as [rows|] eqn:Eg; [|intros Hb; inversion Hb].
    intros Hb; inversion Hb; subst; clear Hb. right.
    repeat split; cbn; try rewrite Es; try reflexivity; try discriminate.
    intros hs' Hs'; inversion Hs'; subst. exists rows. split; [exact Eg|].
    cbn; try rewrite Es; reflexivity.
Qed.

Lemma step_back_terminated bs sel bs2 out :
  step_back add_id bs sel = (bs2, out) ->
  exists d err,
    dispatch add_id (bs_vocab_size bs) (bs_beam_size bs) (bs_tree_builders bs)
      (bs_hypotheses bs) sel (mkDraft [] [] [] [] (bs_terminated_hypotheses bs))
      = (d, err) /\
    bs_terminated_hypotheses bs2 = d_terminated d.
Proof.
  unfold step_back. intros H.
  destruct (dispatch _ _ _ _ _ _ _) as [d err] eqn:Ed.
  exists d, err. split; [reflexivity|].
  destruct err as [e|]; [inversion H; reflexivity|].
  destruct (d_samples d); [inversion H; reflexivity|].
  revert H. unfold update_state. cbn [bs_hypotheses set_terminated].
  destruct (bs_hypotheses bs) as [hs|]; [|intros Hb; inversion Hb; reflexivity].
  destruct (gather hs (d_sort_mask d)); intros Hb; inversion Hb; reflexivity.
Qed.

(** One [step] call, whatever its outcome, only appends to
    [terminated_hypotheses]. *)
Lemma Step_terminated_grows bs lp sel bs' lp' out :
  Step get_next_possible_ids add_id num_newline_nodes bs lp sel bs' lp' out ->
  exists suffix, bs_terminated_hypotheses bs' = bs_terminated_hypotheses bs ++ suffix.
Proof.
  intros HS. inversion HS as [bs1 lp1 e Hf | bs1 lp1 flat Hf _ | bs1 lp1 flat bs2 o Hf _ Hb];
    subst.
  - apply step_front_terminated in Hf. exists []. rewrite app_nil_r. tauto.
  - apply step_front_terminated in Hf. exists []. rewrite app_nil_r. tauto.
  - apply step_front_terminated in Hf as (Ht & _).
    apply step_back_terminated in Hb as (d & err & Ed & Et).
    apply dispatch_terminated_grows in Ed as [suf Es].
    rewrite Et, Es. cbn [d_terminated]. rewrite Ht. eauto.
Qed.

(** *** [torch.topk] *)

(** A selection of every position of the flat list is a valid
    [torch.topk] output, in any order. *)
Lemma is_topk_full (flat : list ext) (sel : list (nat * ext)) :
  length sel = length flat -> NoDup (map fst sel) ->
  (forall i v, In (i, v) sel -> nth_error flat i = Some v) ->
  is_topk (length flat) flat sel.
Proof.
  intros Hl Hnd Hv. unfold is_topk. split; [exact Hl|]. split; [exact Hnd|].
  split; [exact Hv|].
  intros i v j w _ Hj Hnot. exfalso. apply Hnot.
  assert (Hincl : incl (seq 0 (length flat)) (map fst sel)).
  { apply NoDup_length_incl; [exact Hnd | rewrite length_map, length_seq; lia |].
    intros x Hx. apply in_map_iff in Hx as [[i' v'] [<- Hin]].
    apply Hv in Hin. cbn [fst]. apply in_seq. split; [lia|].
    apply nth_error_Some. rewrite Hin. discriminate. }
  apply Hincl. apply in_seq. split; [lia|].
  apply nth_error_Some. rewrite Hj. discriminate.
Qed.

(** A call whose tensor does not have the expected shape is stopped by
    the assertion of [_step_check], after the lazy initialisation. *)
Lemma step_front_mismatch bs lp :
  (t_rows lp, t_cols lp) <> (batch_size bs, bs_vocab_size bs) ->
  exists bs1, step_front get_next_possible_ids bs lp = (bs1, lp, inl AssertionError) /\
    (bs_is_initialized bs = true -> bs1 = bs) /\
    (bs_is_initialized bs = false ->
       init_state bs lp = inr bs1 \/ (bs1 = bs /\ init_state bs lp = inl AssertionError)).
Proof.
  intros Hne.
  assert (Hc : forall b1 : BeamSearch TreeBuilder,
             batch_size b1 = batch_size bs -> bs_vocab_size b1 = bs_vocab_size bs ->
             step_check b1 lp = false).
  { intros b1 E1 E2. unfold step_check. rewrite E1, E2.
    destruct (t_rows lp =? batch_size bs) eqn:Er; [|reflexivity].
    destruct (t_cols lp =? bs_vocab_size bs) eqn:Ec; [|reflexivity].
    apply Nat.eqb_eq in Er, Ec. rewrite Er, Ec in Hne. congruence. }
  unfold step_front. destruct (bs_is_initialized bs) eqn:Ei.
  - rewrite (Hc bs eq_refl eq_refl). simpl. exists bs.
    split; [reflexivity|]. split; [reflexivity | congruence].
  - destruct (init_state bs lp) as [e|b1] eqn:Ein.
    + assert (Ee : e = AssertionError)
        by (unfold init_state in Ein; destruct (bs_scores bs), (bs_hypotheses bs); congruence).
      subst e. exists bs. split; [reflexivity|]. split; [discriminate|].
      intros _. right. split; reflexivity.
    + pose proof Ein as Hf; apply init_state_fields in Hf.
      rewrite (Hc b1); [|tauto|tauto]. simpl. exists b1. split; [reflexivity|].
      split; [discriminate|auto].
Qed.

End DecoderFacts.

(** ** Claims about [BeamSearch.step] *)

Section DecoderClaims.

Variable TreeBuilder : Type.
Variable get_next_possible_ids : TreeBuilder -> list nat.
Variable add_id : TreeBuilder -> nat -> TreeBuilder * ChangeStatus.
Variable num_newline_nodes : nat.

Local Abbreviation Step := (Step get_next_possible_ids add_id num_newline_nodes).
Local Abbreviation Steps := (Steps get_next_possible_ids add_id num_newline_nodes).

(** C2: whenever [step] returns a sort mask, its length is the new batch
    size, which is at most [beam_size] (a positive beam size, as the
    constructor requires), and every entry is a row index of the
    previous batch. *)
Theorem C2_sort_mask_contract (bs : BeamSearch TreeBuilder) lp sel bs' lp' m :
  1 <= bs_beam_size bs ->
  Step bs lp sel bs' lp' (Returned (Some m)) ->
  length m = batch_size bs' /\ batch_size bs' <= bs_beam_size bs' /\
  bs_beam_size bs' = bs_beam_size bs /\
  Forall (fun x => x < batch_size bs) m.
Proof.
  intros HB HS.
  inversion HS as [| | bs1 lp1 flat bs2 o Hf Ht Hb]; subst.
  pose proof Hf as Hf0; apply step_front_terminated in Hf0 as (_ & Hbeam & Hv & _ & _ & Hbs).
  pose proof Hf as Hlen; apply step_front_flat_length in Hlen.
  apply step_back_returned in Hb as (d & Ed & [(_ & Hr & _) | Hc]); [discriminate|].
  destruct Hc as (Hne & Hr & Hsc & Hbeam2 & _).
  inversion Hr; subst m.
  destruct Ht as (_ & _ & Hval & _).
  apply (dispatch_shape _ _ (bs_vocab_size bs1) (bs_beam_size bs1) (batch_size bs)) in Ed
    as ((H1 & H2 & _ & H4) & HleB).
  - unfold batch_size at 1 2. rewrite Hsc.
    rewrite Hbeam2, Hbeam. repeat split; try lia; exact H4.
  - intros i v Hin. apply Hval in Hin.
    assert (i < length flat) by (apply nth_error_Some; rewrite Hin; discriminate).
    rewrite Hv; lia.
  - simpl; lia.
  - unfold draft_shape; simpl. repeat split; constructor.
Qed.

(** C4: a selected candidate whose advance reports [END_LINE] appends the
    terminated hypothesis [parent ++ [token]] with the candidate's score
    to [terminated_hypotheses], and leaves the continuing lists (samples,
    tree builders, sort mask, scores) as they were, so it takes no beam
    slot; and along any sequence of [step] calls
    [terminated_hypotheses] only grows at its end. *)
Theorem C4_terminated_append_only :
  (forall V B tbs hs ind sc rest (d : Draft TreeBuilder) tb0 tb parent,
      is_nan sc = false -> V <> 0 ->
      nth_error tbs (ind / V) = Some tb0 ->
      add_id tb0 (ind mod V) = (tb, END_LINE) ->
      nth_error hs (ind / V) = Some parent ->
      let d' := mkDraft (d_samples d) (d_tree_builders d) (d_sort_mask d)
                  (d_sample_scores d)
                  (d_terminated d ++ [mkHypothesis (parent ++ [ind mod V]) tb sc true]) in
      dispatch add_id V B tbs (Some hs) ((ind, sc) :: rest) d =
      if length (d_samples d) =? B then (d', None)
      else dispatch add_id V B tbs (Some hs) rest d')
  /\
  (forall bs bs' : BeamSearch TreeBuilder,
      Steps bs bs' ->
      exists suffix,
        bs_terminated_hypotheses bs' = bs_terminated_hypotheses bs ++ suffix).
Proof.
  split.
  - intros V B tbs hs ind sc rest d tb0 tb parent Hn HV Htb Hadd Hp d'.
    simpl. rewrite Hn. apply Nat.eqb_neq in HV. rewrite HV, Htb, Hadd.
    unfold save_terminated. rewrite Hp. reflexivity.
  - intros bs bs' Hs. induction Hs as [bs | bs lp sel bs1 lp1 out bs2 HS _ IH].
    + exists []. rewrite app_nil_r. reflexivity.
    + apply Step_terminated_grows in HS as [suf1 E1].
      destruct IH as [suf2 E2]. exists (suf1 ++ suf2).
      rewrite E2, E1, app_assoc. reflexivity.
Qed.

(** C5 (amended): when no continuing hypothesis is drafted, [step]
    returns [None] and leaves the beam as it was: the tree builders, the
    batch size and the length are unchanged and, once the decoder is
    initialised, so are the scores, the token rows, the sort mask and the
    [current_hypotheses] view; only [terminated_hypotheses] may have
    grown. *)
Theorem C5_no_continuation_keeps_beam (bs : BeamSearch TreeBuilder) lp sel bs' lp' :
  Step bs lp sel bs' lp' (Returned None) ->
  bs_tree_builders bs' = bs_tree_builders bs /\
  batch_size bs' = batch_size bs /\ bs_length bs' = bs_length bs /\
  (bs_is_initialized bs = true ->
     bs_scores bs' = bs_scores bs /\ bs_hypotheses bs' = bs_hypotheses bs /\
     bs_sort_mask bs' = bs_sort_mask bs /\
     current_hypotheses bs' = current_hypotheses bs) /\
  exists suffix,
    bs_terminated_hypotheses bs' = bs_terminated_hypotheses bs ++ suffix.
Proof.
  intros HS.
  pose proof HS as Hg; apply Step_terminated_grows in Hg as [suf Hsuf].
  inversion HS as [| | bs1 lp1 flat bs2 o Hf Ht Hb]; subst.
  pose proof Hf as Hf0; apply step_front_terminated in Hf0 as (_ & _ & _ & Htb & Hl & Hbs).
  pose proof Hf as Hst; apply step_front_state in Hst.
  apply step_back_returned in Hb as (d & Ed & [(_ & _ & ->) | (_ & Hr & _)]);
    [|discriminate].
  unfold batch_size in *; cbn [set_terminated bs_tree_builders bs_length bs_scores
                               bs_hypotheses bs_sort_mask] in *.
  split; [exact Htb|]. split; [exact Hbs|]. split; [exact Hl|].
  split; [|eauto].
  intros Hi. destruct Hst as [->|[Hf' _]]; [|congruence].
  repeat split.
Qed.

(** C7: in the scan of a step, a NaN candidate and every candidate after
    it are ignored, without an exception: the step ends exactly as if the
    scan had stopped just before the NaN. *)
Theorem C7_nan_ends_scan (bs : BeamSearch TreeBuilder) pre i post :
  step_back add_id bs (pre ++ (i, NaN) :: post) = step_back add_id bs pre.
Proof.
  unfold step_back. rewrite dispatch_nan_cut. reflexivity.
Qed.

(** C8 (amended): a call whose [log_probs] is not of shape
    [(batch_size, vocab_size)] raises [AssertionError] before any masking,
    selection or commit, and leaves the caller's tensor untouched; an
    initialised decoder keeps its state, but on the very first call (no
    scores and no token rows yet) the lazy [_init_state] has already run
    and stays: the rejected call leaves the decoder initialised, with the
    one-row state of [_init_state] and its row mask sized by the columns
    of the rejected matrix. *)
Theorem C8_shape_mismatch_rejected (bs : BeamSearch TreeBuilder) lp sel bs' lp' out :
  (t_rows lp, t_cols lp) <> (batch_size bs, bs_vocab_size bs) ->
  Step bs lp sel bs' lp' out ->
  out = Raised AssertionError /\ lp' = lp /\
  (bs_is_initialized bs = true -> bs' = bs) /\
  (bs_is_initialized bs = false -> bs_scores bs = None -> bs_hypotheses bs = None ->
     init_state bs lp = inr bs' /\ bs' <> bs /\ bs_is_initialized bs' = true /\
     bs_row_mask bs' = Some (t_cols lp) /\
     bs_scores bs' = Some [Fin 0] /\ bs_hypotheses bs' = Some [[]] /\
     bs_tree_builders bs' = bs_tree_builders bs /\
     bs_terminated_hypotheses bs' = bs_terminated_hypotheses bs /\
     bs_length bs' = bs_length bs).
Proof.
  intros Hne HS.
  destruct (step_front_mismatch _ get_next_possible_ids bs lp Hne) as (bs1 & Hf & H1 & H2).
  assert (E : bs' = bs1 /\ lp' = lp /\ out = Raised AssertionError).
  { inversion HS as [b1 l1 e Hf' | b1 l1 flat Hf' _ | b1 l1 flat b2 o Hf' _ _]; subst;
      rewrite Hf in Hf'; inversion Hf'; subst; auto. }
  destruct E as (-> & -> & ->).
  split; [reflexivity|]. split; [reflexivity|]. split; [exact H1|].
  intros Hi Hs Hh.
  assert (Hinit : init_state bs lp = inr bs1).
  { destruct (H2 Hi) as [E|[_ E]]; [exact E|].
    unfold init_state in E. rewrite Hs, Hh in E. discriminate. }
  pose proof Hinit as F; apply init_state_fields in F.
  destruct F as (_ & _ & Hl & Ht & Htb & _ & Hs1 & _ & Hh1 & _ & Hr & Hi1 & _).
  split; [exact Hinit|]. split; [intros E; rewrite E in Hi1; congruence|].
  repeat split; assumption.
Qed.

(** C10: [step] writes into the caller's tensor: it keeps its size and
    only ever receives [-inf]; after a call that returns, every column
    outside the legal ids of a row's tree builder holds [-inf] and every
    legal column its input value. *)
Theorem C10_caller_tensor_masked_in_place (bs : BeamSearch TreeBuilder) lp sel bs' lp' out :
  Step bs lp sel bs' lp' out ->
  t_rows lp' = t_rows lp /\ t_cols lp' = t_cols lp /\
  (forall i j, t_at lp' i j = t_at lp i j \/ t_at lp' i j = NegInf) /\
  (forall r, out = Returned r ->
     forall k tb j, nth_error (bs_tree_builders bs) k = Some tb ->
       t_at lp' k j = if existsb (Nat.eqb j) (get_next_possible_ids tb)
                      then t_at lp k j else NegInf).
Proof.
  intros HS.
  assert (Hfront : exists bs1 r, step_front get_next_possible_ids bs lp = (bs1, lp', r))
    by (inversion HS; subst; eauto).
  destruct Hfront as (bs1 & r & Hf).
  assert (Hgen : t_rows lp' = t_rows lp /\ t_cols lp' = t_cols lp /\
                 (forall i j, t_at lp' i j = t_at lp i j \/ t_at lp' i j = NegInf)).
  { pose proof Hf as Hc; apply step_front_caller in Hc as [->|(_ & err & Hm & _)].
    - auto.
    - pose proof Hm as Hm1; apply mask_rows_size in Hm1 as [E1 E2].
      split; [exact E1|]. split; [exact E2|].
      eapply mask_rows_only_neginf; exact Hm. }
  destruct Hgen as (G1 & G2 & G3). split; [exact G1|]. split; [exact G2|].
  split; [exact G3|].
  intros r0 Hr k tb j Hk. subst out.
  inversion HS as [| | b1 l1 flat b2 o Hf' _ _]; subst.
  pose proof Hf' as Ht; apply step_front_terminated in Ht as (_ & _ & _ & Htb & _).
  apply step_front_ok in Hf' as (_ & Hm & _).
  rewrite Htb in Hm.
  apply (mask_rows_complete _ _ _ _ _ _ _ Hm k tb j Hk).
Qed.

End DecoderClaims.

(** ** Claims on concrete inputs *)

Ltac eval_steps H :=
  cbv - [Rplus Rminus Ropp ln exp Rdiv Rmult IZR Rinv Rle Rlt] in H.

Ltac eval_goal :=
  cbv - [Rplus Rminus Ropp ln exp Rdiv Rmult IZR Rinv Rle Rlt].

Lemma is_topk_select (k : nat) (flat : list ext) (ord : list nat) :
  length ord = k -> NoDup ord -> Forall (fun i => i < length flat) ord ->
  (forall i j, In i ord -> j < length flat -> ~ In j ord ->
     ext_le (nth j flat NaN) (nth i flat NaN)) ->
  is_topk k flat (select_at flat ord).
Proof.
  intros Hl Hnd Hr Hle.
  assert (Hfst : map fst (select_at flat ord) = ord).
  { unfold select_at. rewrite map_map. apply map_id. }
  unfold is_topk. rewrite Hfst. split; [|split; [exact Hnd|split]].
  - unfold select_at. rewrite length_map. exact Hl.
  - intros i v Hin. unfold select_at in Hin. apply in_map_iff in Hin.
    destruct Hin as (x & Hx & Hxin). inversion Hx; subst.
    apply nth_error_nth'. rewrite Forall_forall in Hr. apply Hr, Hxin.
  - intros i v j w Hin Hj Hnot. unfold select_at in Hin. apply in_map_iff in Hin.
    destruct Hin as (x & Hx & Hxin). inversion Hx; subst.
    assert (Hjl : j < length flat) by (apply nth_error_Some; congruence).
    replace w with (nth j flat NaN) by (apply nth_error_nth; exact Hj).
    apply Hle; assumption.
Qed.

Lemma Step_select {TB} (gp : TB -> list nat) add R (bs : BeamSearch TB) lp ord
    bs1 lp1 flat bs2 out :
  step_front gp bs lp = (bs1, lp1, inr flat) ->
  is_topk (topk_k R bs1) flat (select_at flat ord) ->
  step_back add bs1 (select_at flat ord) = (bs2, out) ->
  Step gp add R bs lp (select_at (front_scores gp bs lp) ord) bs2 lp1 out.
Proof.
  intros Hf Ht Hb. unfold front_scores. rewrite Hf.
  eapply Step_run; eassumption.
Qed.

(** Discharges the side conditions of [is_topk_select] on concrete inputs. *)
Ltac topk_by_order :=
  apply is_topk_select;
  [ reflexivity
  | repeat (apply NoDup_cons; [simpl; lia|]); apply NoDup_nil
  | repeat (apply Forall_cons; [cbn [length]; lia|]); apply Forall_nil
  | let i := fresh "i" in let j := fresh "j" in
    let Hi := fresh "Hi" in let Hj := fresh "Hj" in let Hn := fresh "Hn" in
    intros i j Hi Hj Hn; cbn [length] in Hj; simpl in Hi;
    decompose [or] Hi; try contradiction; subst i;
    do 5 try (destruct j as [|j]; [try (exfalso; apply Hn; simpl; tauto)|]);
    try lia;
    cbn [nth]; unfold ext_le; first [exact I | apply Rle_refl] ].

(** Runs [step] on concrete inputs with [torch.topk] returning the
    candidates at the given indices. *)
Ltac run_step :=
  eapply Step_select;
  [ eval_goal; reflexivity | topk_by_order | eval_goal; reflexivity ].

(** C1 (failing input): only token 0 is legal, beam size 2, one newline
    variant ([k = 4]).  Whatever order [torch.topk] returns the four
    candidates in, the step dispatches two of them, so one continuing
    hypothesis ends with an illegal token (its score is [-inf]). *)
Theorem C1_illegal_token_dispatched :
  forall sel bs' lp' out,
    Step (fixed_possible_ids [0]) (fixed_add_id []) 1
      decoder_4_2 scenario_log_probs sel bs' lp' out ->
    out = Returned (Some [0; 0]) /\
    exists rows, bs_hypotheses bs' = Some rows /\
      existsb (fun row => negb (existsb (Nat.eqb (last row 0))
                                  (fixed_possible_ids [0] tt))) rows = true.
Proof.
  intros sel bs' lp' out HS.
  inversion HS as [b1 l1 e Hf | b1 l1 flat Hf Hlt | b1 l1 flat b2 o Hf Ht Hb]; subst;
    eval_steps Hf; inversion Hf; subst.
  - unfold topk_k in Hlt; simpl in Hlt; lia.
  - destruct Ht as (Hl & Hnd & Hv & _).
    destruct sel as [|[i1 v1] [|[i2 v2] [|[i3 v3] [|[i4 v4] [|]]]]];
      cbn in Hl; try discriminate.
    pose proof (Hv i1 v1 ltac:(simpl; auto)) as E1.
    pose proof (Hv i2 v2 ltac:(simpl; auto)) as E2.
    inversion Hnd as [|? ? Hn1 Hnd2]; subst.
    destruct i1 as [|[|[|[|i1]]]]; cbn in E1;
      try rewrite nth_error_nil in E1; inversion E1; subst;
    destruct i2 as [|[|[|[|i2]]]]; cbn in E2;
      try rewrite nth_error_nil in E2; inversion E2; subst;
    try (exfalso; apply Hn1; simpl; auto; fail);
    eval_steps Hb; inversion Hb; subst;
    (split; [reflexivity | eexists; split; reflexivity]).
Qed.

Lemma c1_scenario_run :
  exists bs' lp',
    Step (fixed_possible_ids [0]) (fixed_add_id []) 1 decoder_4_2 scenario_log_probs
      (select_at (front_scores (fixed_possible_ids [0]) decoder_4_2 scenario_log_probs)
         [0; 1; 2; 3])
      bs' lp' (Returned (Some [0; 0])).
Proof. eexists; eexists; run_step. Qed.

(** Witness of C1: the failing input with [torch.topk] returning the
    candidates in index order. *)
Lemma C1_illegal_token_dispatched_witness :
  exists bs' lp',
    Step (fixed_possible_ids [0]) (fixed_add_id []) 1 decoder_4_2 scenario_log_probs
      (select_at (front_scores (fixed_possible_ids [0]) decoder_4_2 scenario_log_probs)
         [0; 1; 2; 3])
      bs' lp' (Returned (Some [0; 0])) /\
    exists rows, bs_hypotheses bs' = Some rows /\
      existsb (fun row => negb (existsb (Nat.eqb (last row 0))
                                  (fixed_possible_ids [0] tt))) rows = true.
Proof.
  destruct c1_scenario_run as (bs' & lp' & H).
  exists bs', lp'. split; [exact H|].
  exact (proj2 (C1_illegal_token_dispatched _ bs' lp' _ H)).
Defined.

(** The spec's scenario with tokens 0 and 2 legal, no newline variant
    ([k = beam_size = 2]) and [torch.topk] returning candidate 2, then 0. *)
Lemma masked_scenario_run :
  exists bs' lp',
    Step (fixed_possible_ids [0; 2]) (fixed_add_id []) 0 decoder_4_2 scenario_log_probs
      (select_at (front_scores (fixed_possible_ids [0; 2]) decoder_4_2 scenario_log_probs)
         [2; 0])
      bs' lp' (Returned (Some [0; 0])).
Proof. eexists; eexists; run_step. Qed.

(** Witness of C2 on the masked scenario. *)
Lemma C2_sort_mask_contract_witness :
  exists bs' lp',
    Step (fixed_possible_ids [0; 2]) (fixed_add_id []) 0 decoder_4_2 scenario_log_probs
      (select_at (front_scores (fixed_possible_ids [0; 2]) decoder_4_2 scenario_log_probs)
         [2; 0])
      bs' lp' (Returned (Some [0; 0])) /\
    1 <= bs_beam_size decoder_4_2 /\
    length [0; 0] = batch_size bs' /\ batch_size bs' <= bs_beam_size bs' /\
    bs_beam_size bs' = bs_beam_size decoder_4_2 /\
    Forall (fun x => x < batch_size decoder_4_2) [0; 0].
Proof.
  destruct masked_scenario_run as (bs' & lp' & H).
  exists bs', lp'. split; [exact H|]. split; [cbv; lia|].
  refine (C2_sort_mask_contract unit (fixed_possible_ids [0; 2]) (fixed_add_id []) 0
            decoder_4_2 scenario_log_probs _ bs' lp' [0; 0] _ H).
  cbv; lia.
Defined.

(** Two calls of a decoder with vocabulary 2 and beam size 1 where both
    tokens are legal and both complete the sequence: each call's only
    selected candidate terminates, so each appends one terminated
    hypothesis. *)
Lemma terminating_two_step_run :
  exists bs1 lp1 bs2 lp2,
    Step (fixed_possible_ids [0; 1]) (fixed_add_id [0; 1]) 0 (new_BeamSearch 2 1 tt)
      (tensor_of_rows 2 [[Fin 0; Fin 0]])
      (select_at (front_scores (fixed_possible_ids [0; 1]) (new_BeamSearch 2 1 tt)
                   (tensor_of_rows 2 [[Fin 0; Fin 0]])) [0])
      bs1 lp1 (Returned None) /\
    Step (fixed_possible_ids [0; 1]) (fixed_add_id [0; 1]) 0 bs1
      (tensor_of_rows 2 [[Fin 0; Fin 0]])
      (select_at (front_scores (fixed_possible_ids [0; 1]) bs1
                   (tensor_of_rows 2 [[Fin 0; Fin 0]])) [1])
      bs2 lp2 (Returned None) /\
    List.map ids (bs_terminated_hypotheses bs1) = [[0]] /\
    List.map ids (bs_terminated_hypotheses bs2) = [[0]; [1]].
Proof.
  do 4 eexists. split; [run_step|]. split; [run_step|].
  split; reflexivity.
Qed.

(** Witness of C4: a candidate whose advance completes the sequence, and
    a run of two calls from a fresh decoder, each terminating one
    hypothesis. *)
Lemma C4_terminated_append_only_witness :
  dispatch (fixed_add_id [0; 1]) 4 2 [tt] (Some [[]]) [(1, Fin 0)] (mkDraft [] [] [] [] [])
    = (mkDraft [] [] [] [] [mkHypothesis [1] tt (Fin 0) true], None) /\
  exists bs1 bs2,
    Steps (fixed_possible_ids [0; 1]) (fixed_add_id [0; 1]) 0 (new_BeamSearch 2 1 tt) bs1 /\
    Steps (fixed_possible_ids [0; 1]) (fixed_add_id [0; 1]) 0 bs1 bs2 /\
    Steps (fixed_possible_ids [0; 1]) (fixed_add_id [0; 1]) 0 (new_BeamSearch 2 1 tt) bs2 /\
    List.map ids (bs_terminated_hypotheses bs1) = [[0]] /\
    List.map ids (bs_terminated_hypotheses bs2) = [[0]; [1]] /\
    (exists suffix, bs_terminated_hypotheses bs1 =
                    bs_terminated_hypotheses (new_BeamSearch 2 1 tt) ++ suffix) /\
    (exists suffix, bs_terminated_hypotheses bs2 =
                    bs_terminated_hypotheses bs1 ++ suffix) /\
    (exists suffix, bs_terminated_hypotheses bs2 =
                    bs_terminated_hypotheses (new_BeamSearch 2 1 tt) ++ suffix).
Proof.
  destruct (C4_terminated_append_only unit (fixed_possible_ids [0; 1]) (fixed_add_id [0; 1]) 0)
    as [H1 H2].
  split.
  - rewrite (H1 4 2 [tt] [[]] 1 (Fin 0) [] (mkDraft [] [] [] [] []) tt tt []);
      [reflexivity | reflexivity | lia | reflexivity | reflexivity | reflexivity].
  - destruct terminating_two_step_run as (bs1 & lp1 & bs2 & lp2 & S1 & S2 & T1 & T2).
    assert (P1 : Steps (fixed_possible_ids [0; 1]) (fixed_add_id [0; 1]) 0
                   (new_BeamSearch 2 1 tt) bs1)
      by (eapply Steps_step; [exact S1 | apply Steps_refl]).
    assert (P2 : Steps (fixed_possible_ids [0; 1]) (fixed_add_id [0; 1]) 0 bs1 bs2)
      by (eapply Steps_step; [exact S2 | apply Steps_refl]).
    assert (P3 : Steps (fixed_possible_ids [0; 1]) (fixed_add_id [0; 1]) 0
                   (new_BeamSearch 2 1 tt) bs2)
      by (eapply Steps_step; [exact S1 | exact P2]).
    exists bs1, bs2. split; [exact P1|]. split; [exact P2|]. split; [exact P3|].
    split; [exact T1|]. split; [exact T2|].
    split; [exact (H2 _ _ P1)|]. split; [exact (H2 _ _ P2)|]. exact (H2 _ _ P3).
Defined.

(** A decoder with vocabulary 2 and beam size 1; both tokens are legal and
    both complete the sequence, and [k = 1]: the only selected candidate
    terminates, so no continuing hypothesis is produced. *)
Lemma starved_scenario_run :
  exists bs' lp',
    Step (fixed_possible_ids [0; 1]) (fixed_add_id [0; 1]) 0 (new_BeamSearch 2 1 tt)
      (tensor_of_rows 2 [[Fin 0; Fin 0]])
      (select_at (front_scores (fixed_possible_ids [0; 1]) (new_BeamSearch 2 1 tt)
                   (tensor_of_rows 2 [[Fin 0; Fin 0]])) [0])
      bs' lp' (Returned None) /\
    length (current_hypotheses bs') = 1 /\ batch_size bs' = 1 /\
    length (bs_terminated_hypotheses bs') = 1.
Proof.
  eexists; eexists. split; [run_step|]. repeat split; reflexivity.
Qed.

(** C5 (counterexample): [step] reports no continuation, yet the active
    hypotheses are not emptied: the decoder still holds its one hypothesis. *)
Lemma C5_beam_not_emptied :
  exists bs' lp',
    Step (fixed_possible_ids [0; 1]) (fixed_add_id [0; 1]) 0 (new_BeamSearch 2 1 tt)
      (tensor_of_rows 2 [[Fin 0; Fin 0]])
      (select_at (front_scores (fixed_possible_ids [0; 1]) (new_BeamSearch 2 1 tt)
                   (tensor_of_rows 2 [[Fin 0; Fin 0]])) [0])
      bs' lp' (Returned None) /\
    current_hypotheses bs' <> [] /\ batch_size bs' = 1.
Proof.
  destruct starved_scenario_run as (bs' & lp' & H & Hc & Hb & _).
  exists bs', lp'. split; [exact H|]. split; [|exact Hb].
  intros E. rewrite E in Hc. discriminate.
Qed.

(** Witness of C5: the starved scenario. *)
Lemma C5_no_continuation_keeps_beam_witness :
  exists bs' lp',
    Step (fixed_possible_ids [0; 1]) (fixed_add_id [0; 1]) 0 (new_BeamSearch 2 1 tt)
      (tensor_of_rows 2 [[Fin 0; Fin 0]])
      (select_at (front_scores (fixed_possible_ids [0; 1]) (new_BeamSearch 2 1 tt)
                   (tensor_of_rows 2 [[Fin 0; Fin 0]])) [0])
      bs' lp' (Returned None) /\
    bs_tree_builders bs' = bs_tree_builders (new_BeamSearch 2 1 tt) /\
    batch_size bs' = batch_size (new_BeamSearch 2 1 tt) /\
    bs_length bs' = bs_length (new_BeamSearch 2 1 tt) /\
    (bs_is_initialized (new_BeamSearch 2 1 tt) = true ->
       bs_scores bs' = bs_scores (new_BeamSearch 2 1 tt) /\
       bs_hypotheses bs' = bs_hypotheses (new_BeamSearch 2 1 tt) /\
       bs_sort_mask bs' = bs_sort_mask (new_BeamSearch 2 1 tt) /\
       current_hypotheses bs' = current_hypotheses (new_BeamSearch 2 1 tt)) /\
    exists suffix,
      bs_terminated_hypotheses bs' =
      bs_terminated_hypotheses (new_BeamSearch 2 1 tt) ++ suffix.
Proof.
  destruct starved_scenario_run as (bs' & lp' & H & _).
  exists bs', lp'. split; [exact H|].
  exact (C5_no_continuation_keeps_beam unit _ _ _ _ _ _ bs' lp' H).
Defined.

(** C6 (failing input): every token is legal, none completes the
    sequence, and one newline variant makes [k = 4], every candidate.
    [torch.topk(..., sorted=False)] may return them in ascending score
    order (ids 3, 1, 0, 2); the scan then keeps ids 3 and 1 (log-probs -3
    and -2) and drops 2 and 0 (-0.05 and -0.1).  In descending order the
    same call keeps 2 and 0. *)
Theorem C6_unsorted_topk_keeps_low_scores :
  (exists bs' lp',
    Step (fixed_possible_ids [0; 1; 2; 3]) (fixed_add_id []) 1 decoder_4_2
      scenario_log_probs
      (select_at (front_scores (fixed_possible_ids [0; 1; 2; 3]) decoder_4_2
                    scenario_log_probs) [3; 1; 0; 2])
      bs' lp' (Returned (Some [0; 0])) /\
    bs_samples bs' = Some [3; 1]) /\
  (exists bs' lp',
    Step (fixed_possible_ids [0; 1; 2; 3]) (fixed_add_id []) 1 decoder_4_2
      scenario_log_probs
      (select_at (front_scores (fixed_possible_ids [0; 1; 2; 3]) decoder_4_2
                    scenario_log_probs) [2; 0; 1; 3])
      bs' lp' (Returned (Some [0; 0])) /\
    bs_samples bs' = Some [2; 0]).
Proof.
  split; eexists; eexists; (split; [run_step | reflexivity]).
Qed.

(** A first call whose scores have 3 columns instead of 4. *)
Lemma mismatch_scenario_run :
  exists bs' lp',
    Step (fixed_possible_ids [0; 1; 2; 3]) (fixed_add_id []) 0 decoder_4_2
      (tensor_of_rows 3 [[Fin 0; Fin 0; Fin 0]]) [] bs' lp' (Raised AssertionError) /\
    bs_is_initialized bs' = true /\ bs_row_mask bs' = Some 3.
Proof.
  eexists; eexists. split.
  - eapply Step_front_raises. eval_goal. reflexivity.
  - split; reflexivity.
Qed.

(** C8 (counterexample): the first call initialises the decoder before
    checking the shape, so a rejected call leaves it changed. *)
Lemma C8_first_call_initialises_before_check :
  exists bs' lp',
    Step (fixed_possible_ids [0; 1; 2; 3]) (fixed_add_id []) 0 decoder_4_2
      (tensor_of_rows 3 [[Fin 0; Fin 0; Fin 0]]) [] bs' lp' (Raised AssertionError) /\
    bs' <> decoder_4_2.
Proof.
  destruct mismatch_scenario_run as (bs' & lp' & H & Hi & _).
  exists bs', lp'. split; [exact H|].
  intros E. rewrite E in Hi. discriminate.
Qed.

(** Witness of C8: the same first call. *)
Lemma C8_shape_mismatch_rejected_witness :
  exists bs' lp',
    Step (fixed_possible_ids [0; 1; 2; 3]) (fixed_add_id []) 0 decoder_4_2
      (tensor_of_rows 3 [[Fin 0; Fin 0; Fin 0]]) [] bs' lp' (Raised AssertionError) /\
    (t_rows (tensor_of_rows 3 [[Fin 0; Fin 0; Fin 0]]),
     t_cols (tensor_of_rows 3 [[Fin 0; Fin 0; Fin 0]]))
      <> (batch_size decoder_4_2, bs_vocab_size decoder_4_2) /\
    Raised AssertionError = Raised AssertionError /\
    lp' = tensor_of_rows 3 [[Fin 0; Fin 0; Fin 0]] /\
    bs_is_initialized decoder_4_2 = false /\ bs_scores decoder_4_2 = None /\
    bs_hypotheses decoder_4_2 = None /\
    init_state decoder_4_2 (tensor_of_rows 3 [[Fin 0; Fin 0; Fin 0]]) = inr bs' /\
    bs' <> decoder_4_2 /\ bs_is_initialized bs' = true /\ bs_row_mask bs' = Some 3.
Proof.
  destruct mismatch_scenario_run as (bs' & lp' & H & _).
  assert (Hm : (t_rows (tensor_of_rows 3 [[Fin 0; Fin 0; Fin 0]]),
                t_cols (tensor_of_rows 3 [[Fin 0; Fin 0; Fin 0]]))
               <> (batch_size decoder_4_2, bs_vocab_size decoder_4_2)).
  { cbn. intros E. inversion E. }
  destruct (C8_shape_mismatch_rejected unit _ _ _ _ _ _ bs' lp' _ Hm H)
    as (Ho & Hl & _ & Hu).
  destruct (Hu eq_refl eq_refl eq_refl) as (Hi & Hne & Hi' & Hr & _).
  exists bs', lp'. split; [exact H|]. split; [exact Hm|]. split; [exact Ho|].
  split; [exact Hl|]. split; [reflexivity|]. split; [reflexivity|].
  split; [reflexivity|]. split; [exact Hi|]. split; [exact Hne|].
  split; [exact Hi'|]. exact Hr.
Defined.

(** Witness of C10: the masked scenario; column 1 of the caller's tensor,
    [-2] before the call, is [-inf] after it. *)
Lemma C10_caller_tensor_masked_in_place_witness :
  exists bs' lp',
    Step (fixed_possible_ids [0; 2]) (fixed_add_id []) 0 decoder_4_2 scenario_log_probs
      (select_at (front_scores (fixed_possible_ids [0; 2]) decoder_4_2 scenario_log_probs)
         [2; 0])
      bs' lp' (Returned (Some [0; 0])) /\
    t_rows lp' = t_rows scenario_log_probs /\ t_cols lp' = t_cols scenario_log_probs /\
    t_at scenario_log_probs 0 1 = Fin (-2) /\ t_at lp' 0 1 = NegInf.
Proof.
  destruct masked_scenario_run as (bs' & lp' & H).
  destruct (C10_caller_tensor_masked_in_place unit _ _ _ _ _ _ bs' lp' _ H)
    as (Hr & Hc & _ & Hk).
  exists bs', lp'. split; [exact H|]. split; [exact Hr|]. split; [exact Hc|].
  split; [reflexivity|].
  exact (Hk _ eq_refl 0 tt 1 eq_refl).
Defined.

(** ** Reachable decoder states *)

(** *** Scores produced by [log_softmax] and the score addition *)

Lemma exp_sum_nonneg (row : list ext) :
  (0 <= fold_right (fun x acc => match x with Fin r => (exp r + acc)%R | _ => acc end)
          0%R row)%R.
Proof.
  induction row as [|a row IH]; simpl; [lra|].
  destruct a; [pose proof (exp_pos r) |..]; lra.
Qed.

Lemma exp_sum_ge (row : list ext) r :
  In (Fin r) row ->
  (exp r <= fold_right (fun x acc => match x with Fin r => (exp r + acc)%R | _ => acc end)
              0%R row)%R.
Proof.
  induction row as [|a row IH]; simpl; [tauto|].
  intros [->|H].
  - pose proof (exp_sum_nonneg row). lra.
  - specialize (IH H). destruct a; [pose proof (exp_pos r0) |..]; lra.
Qed.

Lemma log_softmax_row_nonpos (row : list ext) y :
  In y (log_softmax_row row) -> y = NaN \/ nonpos_score y.
Proof.
  unfold log_softmax_row. destruct (_ || _).
  - intros H. apply in_map_iff in H as [x [<- _]]. left; reflexivity.
  - intros H. apply in_map_iff in H as [x [<- Hx]]. right.
    destruct x as [r| | |]; simpl; auto.
    pose proof (exp_sum_ge row r Hx) as Hs. pose proof (exp_pos r).
    destruct (Rle_lt_or_eq_dec _ _ Hs) as [Hlt|Heq].
    + apply ln_increasing in Hlt; [|lra]. rewrite ln_exp in Hlt. lra.
    + rewrite <- Heq, ln_exp. lra.
Qed.

Lemma ext_add_nonpos (a b : ext) :
  (a = NaN \/ nonpos_score a) -> (b = NaN \/ nonpos_score b) ->
  ext_add a b = NaN \/ nonpos_score (ext_add a b).
Proof.
  intros Ha Hb. destruct a; destruct b; simpl in *;
    destruct Ha as [Ha|Ha]; try discriminate; try contradiction;
    destruct Hb as [Hb|Hb]; try discriminate; try contradiction; auto; right; lra.
Qed.

Lemma flat_scores_nonpos (t : Tensor) (s : list ext) x :
  Forall nonpos_score s ->
  In x (flatten (add_scores (log_softmax t) s)) -> x = NaN \/ nonpos_score x.
Proof.
  intros Hs H. unfold flatten in H. apply in_flat_map in H as [i [_ Hi]].
  unfold row_list in Hi. apply in_map_iff in Hi as [j [<- _]].
  cbn [add_scores log_softmax t_at]. apply ext_add_nonpos.
  - destruct (nth_in_or_default j (log_softmax_row (row_list t i)) NaN) as [Hin| ->].
    + exact (log_softmax_row_nonpos _ _ Hin).
    + left; reflexivity.
  - destruct (nth_in_or_default i s NaN) as [Hin| ->].
    + right. rewrite Forall_forall in Hs. apply Hs. exact Hin.
    + left; reflexivity.
Qed.

(** *** [self._hypotheses[sort_mask]] *)

Lemma gather_spec (hs : list (list nat)) idx rows :
  gather hs idx = Some rows ->
  length rows = length idx /\
  (forall k, k < length idx -> nth_error rows k = nth_error hs (nth k idx 0)).
Proof.
  revert rows. induction idx as [|i rest IH]; intros rows H; simpl in H.
  - inversion H; subst. split; [reflexivity|]. intros k Hk; simpl in Hk; lia.
  - destruct (nth_error hs i) as [r|] eqn:Er; [|discriminate].
    destruct (gather hs rest) as [rs|] eqn:Eg; [|discriminate].
    inversion H; subst. destruct (IH rs eq_refl) as [Hl Hn].
    split; [simpl; lia|].
    intros [|k] Hk; simpl; [symmetry; exact Er|]. apply Hn. simpl in Hk; lia.
Qed.

Lemma gather_some (hs : list (list nat)) idx :
  Forall (fun x => x < length hs) idx -> gather hs idx <> None.
Proof.
  induction idx as [|i rest IH]; intros H; simpl; [discriminate|].
  inversion H as [|? ? Hi Hr]; subst.
  destruct (nth_error hs i) eqn:Er; [|apply nth_error_None in Er; lia].
  destruct (gather hs rest); [discriminate|]. exfalso; apply IH; auto.
Qed.

Lemma gather_in (hs : list (list nat)) idx rows r :
  gather hs idx = Some rows -> In r rows -> In r hs.
Proof.
  intros Hg Hr. apply gather_spec in Hg as [Hl Hn].
  apply In_nth_error in Hr as [k Hk].
  assert (k < length rows) by (apply nth_error_Some; rewrite Hk; discriminate).
  rewrite Hn in Hk by lia. apply nth_error_In in Hk. exact Hk.
Qed.

Lemma nth_error_append_rows (rows : list (list nat)) (xs : list nat) k r :
  nth_error rows k = Some r -> k < length xs ->
  nth_error (map (fun '(r0, s0) => r0 ++ [s0]) (combine rows xs)) k
    = Some (r ++ [nth k xs 0]).
Proof.
  revert xs k. induction rows as [|r0 rows IH]; intros xs k Hk Hx.
  - destruct k; discriminate.
  - destruct xs as [|x xs]; simpl in Hx; [lia|].
    destruct k as [|k]; simpl in *.
    + inversion Hk; subst. reflexivity.
    + apply IH; [exact Hk | lia].
Qed.

Lemma last_of_appended_rows (rows : list (list nat)) (xs : list nat) :
  length rows = length xs ->
  map (fun row => last row 0) (map (fun '(r0, s0) => r0 ++ [s0]) (combine rows xs)) = xs.
Proof.
  revert xs. induction rows as [|r rows IH]; intros [|x xs] H; simpl in *;
    try discriminate; try reflexivity.
  rewrite last_last, IH by lia. reflexivity.
Qed.

Lemma last_predictions_appended {TB} (bs : BeamSearch TB) rows xs :
  bs_hypotheses bs = Some (map (fun '(r0, s0) => r0 ++ [s0]) (combine rows xs)) ->
  length rows = length xs -> xs <> [] -> last_predictions bs = inr xs.
Proof.
  intros Eh L Hne. unfold last_predictions. rewrite Eh.
  destruct rows as [|r0 rows']; destruct xs as [|x xs]; simpl in L;
    try contradiction; try discriminate.
  simpl. rewrite length_app, Nat.add_comm. simpl.
  rewrite last_last. f_equal. f_equal. apply last_of_appended_rows. lia.
Qed.

Lemma nonpos_normalized_score {TB} (h : Hypothesis_ TB) b p :
  (0 < b)%R -> nonpos_score (score h) ->
  exists x, get_normalized_score h b p = Fin x /\ (0 <= x <= 1)%R.
Proof.
  intros Hb Hs. unfold get_normalized_score.
  destruct (score h) as [r| | |]; simpl in Hs; try contradiction.
  - eexists; split; [reflexivity|].
    pose proof (norm_factor_pos b (length (ids h)) p Hb) as Hn.
    set (nf := norm_factor b (length (ids h)) p) in *.
    assert (Hq : (r / nf <= 0)%R).
    { unfold Rdiv. rewrite <- (Rmult_0_l (/ nf)).
      apply Rmult_le_compat_r; [left; apply Rinv_0_lt_compat; exact Hn | exact Hs]. }
    pose proof (exp_pos (r / nf)). split; [lra|].
    destruct (Rle_lt_or_eq_dec _ _ Hq) as [Hlt|Heq].
    + apply exp_increasing in Hlt. rewrite exp_0 in Hlt. lra.
    + rewrite Heq, exp_0. lra.
  - exists 0%R. split; [reflexivity | lra].
Qed.

Section DecoderInvariant.

Variable TreeBuilder : Type.
Variable get_next_possible_ids : TreeBuilder -> list nat.
Variable add_id : TreeBuilder -> nat -> TreeBuilder * ChangeStatus.
Variable num_newline_nodes : nat.

Local Abbreviation Step := (Step get_next_possible_ids add_id num_newline_nodes).
Local Abbreviation Steps := (Steps get_next_possible_ids add_id num_newline_nodes).

Lemma dispatch_scores V B tbs hyps cands (d d' : Draft TreeBuilder) err :
  (forall i v, In (i, v) cands -> v = NaN \/ nonpos_score v) ->
  Forall nonpos_score (d_sample_scores d) ->
  Forall (fun h => is_terminated h = true /\ nonpos_score (score h)) (d_terminated d) ->
  dispatch add_id V B tbs hyps cands d = (d', err) ->
  Forall nonpos_score (d_sample_scores d') /\
  Forall (fun h => is_terminated h = true /\ nonpos_score (score h)) (d_terminated d').
Proof.
  revert d. induction cands as [|[ind sc] rest IH]; intros d Hc Hs Ht H; simpl in H.
  - inversion H; subst; auto.
  - destruct (is_nan sc) eqn:En; [inversion H; subst; auto|].
    assert (Hsc : nonpos_score sc).
    { destruct (Hc ind sc (or_introl eq_refl)) as [->|?]; [discriminate | assumption]. }
    destruct (V =? 0); [inversion H; subst; auto|].
    destruct (nth_error tbs (ind / V)) as [tb0|]; [|inversion H; subst; auto].
    destruct (add_id tb0 (ind mod V)) as [tb cs].
    assert (Hstep : forall d1 : Draft TreeBuilder,
               Forall nonpos_score (d_sample_scores d1) ->
               Forall (fun h => is_terminated h = true /\ nonpos_score (score h))
                 (d_terminated d1) ->
               (if length (d_samples d1) =? B then (d1, None)
                else dispatch add_id V B tbs hyps rest d1) = (d', err) ->
               Forall nonpos_score (d_sample_scores d') /\
               Forall (fun h => is_terminated h = true /\ nonpos_score (score h))
                 (d_terminated d')).
    { intros d1 H1 H2 H3. destruct (length (d_samples d1) =? B).
      - inversion H3; subst; auto.
      - apply (IH d1); auto. intros i v Hi; apply (Hc i v); right; exact Hi. }
    destruct cs.
    + destruct (save_terminated hyps (ind / V) (ind mod V) sc tb d) as [d1|e] eqn:Es;
        [|inversion H; subst; auto].
      apply save_terminated_draft in Es as (p & _ & _ & ->).
      refine (Hstep _ _ _ H); [exact Hs|]. simpl. apply Forall_app. split; [exact Ht|].
      constructor; [|constructor]. simpl. auto.
    + refine (Hstep _ _ _ H); [|exact Ht]. simpl. apply Forall_app. split; auto.
Qed.

(** The scan of one step, run on a reachable state with [torch.topk]'s
    candidates (flat indices of the batch, scores that are NaN or
    running scores), keeps the parallel lists aligned and all scores
    running scores. *)
Lemma dispatch_inv V B (bs : BeamSearch TreeBuilder) hs ss sel (d : Draft TreeBuilder) err :
  beam_inv V B bs -> bs_hypotheses bs = Some hs -> bs_scores bs = Some ss ->
  (forall i v, In (i, v) sel -> i < length ss * V /\ (v = NaN \/ nonpos_score v)) ->
  (B = 0 -> sel = []) ->
  dispatch add_id V B (bs_tree_builders bs) (Some hs) sel
    (mkDraft [] [] [] [] (bs_terminated_hypotheses bs)) = (d, err) ->
  draft_shape (length ss) d /\ length (d_samples d) <= B /\
  Forall nonpos_score (d_sample_scores d) /\
  Forall (fun h => is_terminated h = true /\ nonpos_score (score h)) (d_terminated d).
Proof.
  intros (_ & _ & _ & Ht & _) Eh Es Hsel HB0 Ed.
  assert (Hd : Forall nonpos_score (d_sample_scores d) /\
               Forall (fun h => is_terminated h = true /\ nonpos_score (score h))
                 (d_terminated d)).
  { refine (dispatch_scores _ _ _ _ _ _ _ _ _ _ _ Ed).
    - intros i v Hin. exact (proj2 (Hsel i v Hin)).
    - constructor.
    - exact Ht. }
  destruct (Nat.eq_dec B 0) as [E0|NB].
  - rewrite (HB0 E0) in Ed. simpl in Ed. inversion Ed; subst.
    unfold draft_shape; simpl. repeat split; auto.
  - assert (Hsh : draft_shape (length ss) d /\ length (d_samples d) <= B).
    { eapply (dispatch_shape _ add_id V B (length ss)); [| | |exact Ed].
      - intros i v Hin. exact (proj1 (Hsel i v Hin)).
      - simpl; lia.
      - unfold draft_shape; simpl. repeat split; constructor. }
    tauto.
Qed.

Lemma step_back_inv V B (bs bs' : BeamSearch TreeBuilder) hs ss sel out :
  beam_inv V B bs -> bs_is_initialized bs = true ->
  bs_hypotheses bs = Some hs -> bs_scores bs = Some ss ->
  (forall i v, In (i, v) sel -> i < length ss * V /\ (v = NaN \/ nonpos_score v)) ->
  (B = 0 -> sel = []) ->
  step_back add_id bs sel = (bs', out) ->
  beam_inv V B bs'.
Proof.
  intros Hinv Hi Eh Es Hsel HB0 H.
  pose proof Hinv as (Hv & Hb & Hl & Ht & Hrest). rewrite Hi in Hrest.
  destruct Hrest as (hs0 & ss0 & Eh0 & Es0 & Lhs & Ltb & L1 & LB & Hrows & Hss).
  rewrite Eh in Eh0; inversion Eh0; subst hs0. rewrite Es in Es0; inversion Es0; subst ss0.
  unfold step_back in H. rewrite Hv, Hb, Eh in H.
  destruct (dispatch add_id V B (bs_tree_builders bs) (Some hs) sel
              (mkDraft [] [] [] [] (bs_terminated_hypotheses bs))) as [d err] eqn:Ed.
  destruct (dispatch_inv V B bs hs ss sel d err Hinv Eh Es Hsel HB0 Ed)
    as ((S1 & S2 & S3 & S4) & SB & Hds & Hdt).
  assert (Hset : beam_inv V B (set_terminated (d_terminated d) bs)).
  { unfold beam_inv; cbn [set_terminated bs_vocab_size bs_beam_size bs_length
                          bs_terminated_hypotheses bs_is_initialized bs_hypotheses
                          bs_scores bs_tree_builders].
    refine (conj Hv (conj Hb (conj Hl (conj Hdt _)))). rewrite Hi.
    exists hs, ss. repeat split; assumption. }
  destruct err as [e|]; [inversion H; subst; exact Hset|].
  destruct (d_samples d) as [|x xs] eqn:Esm; [inversion H; subst; exact Hset|].
  unfold update_state in H. cbn [bs_hypotheses set_terminated] in H. rewrite Eh in H.
  destruct (gather hs (d_sort_mask d)) as [rows|] eqn:Eg.
  2: { exfalso. apply (gather_some hs (d_sort_mask d)); [|exact Eg].
       rewrite Lhs. exact S4. }
  injection H as <- <-.
  pose proof (gather_spec _ _ _ Eg) as [Lrows _].
  unfold beam_inv, incr_length.
  cbn [bs_vocab_size bs_beam_size bs_length bs_terminated_hypotheses bs_is_initialized
       bs_hypotheses bs_scores bs_tree_builders set_terminated].
  split; [exact Hv|]. split; [exact Hb|]. split; [simpl; lia|]. split; [exact Hdt|].
  simpl. rewrite Hi.
  eexists _, _. split; [reflexivity|]. split; [reflexivity|].
  simpl in S1, S2, S3.
  split; [rewrite length_map, length_combine, Lrows, S1, S2, Esm; simpl; lia|].
  split; [rewrite S3, S2; reflexivity|].
  split; [rewrite S2; simpl; lia|].
  split; [rewrite S2; simpl in SB; destruct B; lia|].
  split; [|exact Hds].
  apply Forall_forall. intros r' Hr'.
  apply in_map_iff in Hr' as [[r0 s0] [<- Hin]].
  apply in_combine_l in Hin. apply (gather_in _ _ _ _ Eg) in Hin.
  rewrite Forall_forall in Hrows. specialize (Hrows r0 Hin).
  rewrite length_app. simpl. lia.
Qed.

Lemma init_inv V B (bs bs1 : BeamSearch TreeBuilder) lp :
  beam_inv V B bs -> init_state bs lp = inr bs1 -> beam_inv V B bs1.
Proof.
  intros (Hv & Hb & Hl & Ht & Hr) Hin.
  apply init_state_fields in Hin
    as (F1 & F2 & F3 & F4 & F5 & F6 & F7 & F8 & F9 & _ & _ & F12 & _).
  assert (Hi : bs_is_initialized bs = false).
  { destruct (bs_is_initialized bs); [|reflexivity].
    destruct Hr as (hs & ss & Eh & _). congruence. }
  rewrite Hi in Hr. destruct Hr as (_ & _ & Htb & HL).
  unfold beam_inv. rewrite F1, F2, F3, F4, F12.
  refine (conj Hv (conj Hb (conj Hl (conj Ht _)))).
  exists [[]], [Fin 0]. rewrite F5, Htb.
  split; [exact F9|]. split; [exact F7|]. split; [reflexivity|].
  split; [reflexivity|]. split; [simpl; lia|]. split; [apply Nat.le_max_l|].
  split.
  - constructor; [simpl; lia | constructor].
  - constructor; [simpl; lra | constructor].
Qed.

Lemma step_front_inv V B (bs bs1 : BeamSearch TreeBuilder) lp lp1 r :
  beam_inv V B bs -> step_front get_next_possible_ids bs lp = (bs1, lp1, r) ->
  beam_inv V B bs1.
Proof.
  intros Hinv H. apply step_front_state in H as [->|[_ Hin]]; [exact Hinv|].
  exact (init_inv _ _ _ _ _ Hinv Hin).
Qed.

(** What the scan of a step that reached [torch.topk] starts from. *)
Lemma step_run_ready V B (bs bs1 : BeamSearch TreeBuilder) lp lp1 flat sel :
  beam_inv V B bs ->
  step_front get_next_possible_ids bs lp = (bs1, lp1, inr flat) ->
  is_topk (topk_k num_newline_nodes bs1) flat sel ->
  beam_inv V B bs1 /\ bs_is_initialized bs1 = true /\
  exists hs ss, bs_hypotheses bs1 = Some hs /\ bs_scores bs1 = Some ss /\
    (forall i v, In (i, v) sel -> i < length ss * V /\ (v = NaN \/ nonpos_score v)) /\
    (B = 0 -> sel = []).
Proof.
  intros Hinv Hf Htop.
  assert (I1 := step_front_inv _ _ _ _ _ _ _ Hinv Hf).
  pose proof Hf as Hok; apply step_front_ok in Hok as (_ & _ & s & Es1 & Hflat).
  assert (Hi1 : bs_is_initialized bs1 = true).
  { pose proof Hf as Hst; apply step_front_state in Hst as [->|[_ Hin]].
    - destruct (bs_is_initialized bs) eqn:Ei; [reflexivity|].
      destruct Hinv as (_ & _ & _ & _ & Hr). rewrite Ei in Hr.
      destruct Hr as (Hs & _). congruence.
    - apply init_state_fields in Hin. tauto. }
  split; [exact I1|]. split; [exact Hi1|].
  pose proof I1 as (Hv & Hb & _ & _ & Hr). rewrite Hi1 in Hr.
  destruct Hr as (hs & ss & Eh & Es & _).
  rewrite Es1 in Es; inversion Es; subst s.
  exists hs, ss. split; [exact Eh|]. split; [exact Es1|].
  destruct Htop as (Hlen & _ & Hnth & _).
  split.
  - intros i v Hin. specialize (Hnth i v Hin).
    pose proof Hf as Hfl; apply step_front_flat_length in Hfl.
    pose proof Hf as Hft; apply step_front_terminated in Hft as (_ & _ & Hv0 & _ & _ & Hbs).
    split.
    + assert (i < length flat) by (apply nth_error_Some; rewrite Hnth; discriminate).
      assert (Hb1 : batch_size bs1 = length ss)
        by (unfold batch_size; rewrite Es1; reflexivity).
      rewrite Hfl, <- Hbs, Hb1, <- Hv0, Hv in H. exact H.
    + apply nth_error_In in Hnth. rewrite Hflat in Hnth.
      pose proof I1 as (_ & _ & _ & _ & Hr). rewrite Hi1 in Hr.
      destruct Hr as (hs' & ss' & _ & Es' & _ & _ & _ & _ & _ & Hss).
      rewrite Es1 in Es'; inversion Es'; subst ss'.
      exact (flat_scores_nonpos _ _ _ Hss Hnth).
  - intros E0. unfold topk_k in Hlen. rewrite Hb, E0, Nat.mul_0_r in Hlen.
    destruct sel; [reflexivity | discriminate].
Qed.

Lemma Step_inv V B (bs bs' : BeamSearch TreeBuilder) lp sel lp' out :
  beam_inv V B bs -> Step bs lp sel bs' lp' out -> beam_inv V B bs'.
Proof.
  intros Hinv HS.
  inversion HS as [bs1 lp1 e Hf | bs1 lp1 flat Hf _ | bs1 lp1 flat bs2 o Hf Ht Hb]; subst.
  - exact (step_front_inv _ _ _ _ _ _ _ Hinv Hf).
  - exact (step_front_inv _ _ _ _ _ _ _ Hinv Hf).
  - destruct (step_run_ready _ _ _ _ _ _ _ _ Hinv Hf Ht)
      as (I1 & Hi1 & hs & ss & Eh & Es & Hsel & HB0).
    exact (step_back_inv _ _ _ _ _ _ _ _ I1 Hi1 Eh Es Hsel HB0 Hb).
Qed.

Lemma Steps_inv V B (bs bs' : BeamSearch TreeBuilder) :
  Steps bs bs' -> beam_inv V B bs -> beam_inv V B bs'.
Proof.
  induction 1 as [bs | bs lp sel bs1 lp1 out bs2 HS _ IH]; intros Hinv; [exact Hinv|].
  apply IH. exact (Step_inv _ _ _ _ _ _ _ _ Hinv HS).
Qed.

Lemma new_BeamSearch_inv V B (tb : TreeBuilder) : beam_inv V B (new_BeamSearch V B tb).
Proof.
  unfold beam_inv, new_BeamSearch; simpl. repeat split; auto.
Qed.

Lemma update_state_length (bs bs2 : BeamSearch TreeBuilder) d e :
  update_state bs d = (bs2, e) ->
  bs_length bs2 = bs_length bs /\ bs_sort_mask bs2 = Some (d_sort_mask d).
Proof.
  unfold update_state. destruct (bs_hypotheses bs) as [hs|];
    [destruct (gather hs (d_sort_mask d))|]; intros H; inversion H; auto.
Qed.

(** *** Properties of the reachable states *)

(** Every state reached by a sequence of [step] calls (each may raise)
    from [BeamSearch(vocab_size, beam_size, tree_builder)] satisfies
    [beam_inv]. *)
Theorem reachable_beam_inv V B (tb : TreeBuilder) bs :
  Steps (new_BeamSearch V B tb) bs -> beam_inv V B bs.
Proof.
  intros H. apply (Steps_inv _ _ _ _ H). apply new_BeamSearch_inv.
Qed.

(** After the first call, [current_hypotheses] has [batch_size] entries,
    between 1 and [max 1 beam_size]; each is flagged not terminated,
    holds [_length - 1] token ids and has a score that is [-inf] or at
    most 0. *)
Theorem reachable_current_hypotheses V B (tb : TreeBuilder) bs :
  Steps (new_BeamSearch V B tb) bs -> bs_is_initialized bs = true ->
  length (current_hypotheses bs) = batch_size bs /\
  1 <= batch_size bs <= Nat.max 1 B /\
  Forall (fun h => length (ids h) + 1 = bs_length bs /\ is_terminated h = false /\
                   nonpos_score (score h)) (current_hypotheses bs).
Proof.
  intros H Hi. apply (Steps_inv V B) in H; [|apply new_BeamSearch_inv].
  destruct H as (_ & _ & _ & _ & Hr). rewrite Hi in Hr.
  destruct Hr as (hs & ss & Eh & Es & Lhs & Ltb & L1 & LB & Hrows & Hss).
  unfold current_hypotheses, batch_size. rewrite Eh, Es.
  split; [rewrite length_map, !length_combine; lia|].
  split; [lia|].
  apply Forall_forall. intros h Hh.
  apply in_map_iff in Hh as [[r [t s]] [<- Hin]]. simpl.
  pose proof Hin as Hr; apply in_combine_l in Hr.
  apply in_combine_r, in_combine_r in Hin.
  rewrite Forall_forall in Hrows, Hss. auto.
Qed.

(** In every reachable state, for [len_norm_base > 0],
    [get_normalized_score] of a terminated or current hypothesis is a
    number in [[0, 1]]. *)
Theorem reachable_normalized_score V B (tb : TreeBuilder) bs b p h :
  Steps (new_BeamSearch V B tb) bs -> (0 < b)%R ->
  In h (bs_terminated_hypotheses bs ++ current_hypotheses bs) ->
  exists x, get_normalized_score h b p = Fin x /\ (0 <= x <= 1)%R.
Proof.
  intros H Hb Hin. apply nonpos_normalized_score; [exact Hb|].
  pose proof H as Hinv; apply (Steps_inv V B) in Hinv; [|apply new_BeamSearch_inv].
  apply in_app_or in Hin as [Hin|Hin].
  - destruct Hinv as (_ & _ & _ & Ht & _). rewrite Forall_forall in Ht.
    apply Ht. exact Hin.
  - destruct (bs_is_initialized bs) eqn:Hi.
    + destruct (reachable_current_hypotheses V B tb bs H Hi) as (_ & _ & Hc).
      rewrite Forall_forall in Hc. apply Hc. exact Hin.
    + destruct Hinv as (_ & _ & _ & _ & Hr). rewrite Hi in Hr.
      destruct Hr as (_ & Eh & _). unfold current_hypotheses in Hin.
      rewrite Eh in Hin. contradiction.
Qed.

(** In every reachable state, [last_predictions] fails its assertion
    while [_length] is 1 (no step has extended the hypotheses), and
    otherwise returns one token per active hypothesis. *)
Theorem reachable_last_predictions V B (tb : TreeBuilder) bs :
  Steps (new_BeamSearch V B tb) bs ->
  (bs_length bs = 1 -> last_predictions bs = inl AssertionError) /\
  (1 < bs_length bs ->
   exists preds, last_predictions bs = inr preds /\ length preds = batch_size bs).
Proof.
  intros H. apply (Steps_inv V B) in H; [|apply new_BeamSearch_inv].
  destruct H as (_ & _ & _ & _ & Hr).
  destruct (bs_is_initialized bs).
  - destruct Hr as (hs & ss & Eh & Es & Lhs & _ & L1 & _ & Hrows & _).
    unfold last_predictions, batch_size. rewrite Eh, Es.
    destruct hs as [|r hs']; [simpl in Lhs; lia|].
    inversion Hrows as [|? ? Hr0 _]; subst.
    split.
    + intros HL. replace (length r =? 0) with true by (symmetry; apply Nat.eqb_eq; lia).
      reflexivity.
    + intros HL. replace (length r =? 0) with false by (symmetry; apply Nat.eqb_neq; lia).
      eexists; split; [reflexivity|]. rewrite length_map. exact Lhs.
  - destruct Hr as (_ & Eh & _ & HL). unfold last_predictions. rewrite Eh.
    split; [reflexivity | lia].
Qed.

(** A [step] call increases [_length] by one when it returns a sort mask,
    and leaves it unchanged when it returns [None] or raises. *)
Theorem step_length_counter (bs bs' : BeamSearch TreeBuilder) lp sel lp' out :
  Step bs lp sel bs' lp' out ->
  bs_length bs' = match out with
                  | Returned (Some _) => S (bs_length bs)
                  | _ => bs_length bs
                  end.
Proof.
  intros HS.
  inversion HS as [bs1 lp1 e Hf | bs1 lp1 flat Hf _ | bs1 lp1 flat bs2 o Hf Ht Hb]; subst;
    apply step_front_terminated in Hf as (_ & _ & _ & _ & Hl & _); [exact Hl | exact Hl|].
  rewrite <- Hl. clear HS Ht Hl.
  unfold step_back in Hb.
  destruct (dispatch _ _ _ _ _ _ _) as [d [e|]]; [inversion Hb; reflexivity|].
  destruct (d_samples d); [inversion Hb; reflexivity|].
  destruct (update_state (set_terminated (d_terminated d) bs1) d) as [b2 [e|]] eqn:Eu;
    apply update_state_length in Eu as [Hl2 Hm]; inversion Hb; subst; [exact Hl2|].
  rewrite Hm. simpl. rewrite Hl2. reflexivity.
Qed.

(** When a [step] from a reachable state with hypotheses [hs] returns the
    sort mask [m], row [k] of the new hypotheses is row [m[k]] of [hs]
    followed by the new sample [k], and [last_predictions] returns the
    new samples. *)
Theorem step_extends_parent_rows V B (tb : TreeBuilder) bs lp sel bs' lp' m hs :
  Steps (new_BeamSearch V B tb) bs ->
  Step bs lp sel bs' lp' (Returned (Some m)) ->
  bs_hypotheses bs = Some hs ->
  exists hs' samples,
    bs_hypotheses bs' = Some hs' /\ bs_samples bs' = Some samples /\
    last_predictions bs' = inr samples /\
    length hs' = length m /\ length samples = length m /\
    forall k, k < length m ->
      exists parent, nth_error hs (nth k m 0) = Some parent /\
                     nth_error hs' k = Some (parent ++ [nth k samples 0]).
Proof.
  intros Hreach HS Eh.
  apply (Steps_inv V B) in Hreach; [|apply new_BeamSearch_inv].
  inversion HS as [| | bs1 lp1 flat bs2 o Hf Ht Hb]; subst.
  destruct (step_run_ready _ _ _ _ _ _ _ _ Hreach Hf Ht)
    as (I1 & Hi1 & hs1 & ss & Eh1 & Es & Hsel & HB0).
  assert (Hbs1 : bs1 = bs).
  { pose proof Hf as Hst; apply step_front_state in Hst as [->|[_ Hin]]; [reflexivity|].
    apply init_state_fields in Hin. destruct Hin as (_ & _ & _ & _ & _ & _ & _ & Hn & _).
    congruence. }
  subst bs1. rewrite Eh in Eh1; inversion Eh1; subst hs1.
  pose proof Hb as Hb'.
  apply step_back_returned in Hb' as (d & Ed & [(_ & Hr & _) | Hc]); [discriminate|].
  destruct Hc as (Hne & Hr & _ & _ & Hsm & _ & _ & _ & Hrows).
  inversion Hr; subst m. destruct (Hrows hs Eh) as (rows & Eg & Eh').
  pose proof I1 as (Hv & Hb0 & _).
  rewrite Hv, Hb0, Eh in Ed.
  destruct (dispatch_inv V B bs hs ss sel d None I1 Eh Es Hsel HB0 Ed)
    as ((S1 & _ & _ & _) & _).
  destruct (gather_spec _ _ _ Eg) as [Lrows Hnth].
  exists (map (fun '(r0, s0) => r0 ++ [s0]) (combine rows (d_samples d))), (d_samples d).
  split; [exact Eh'|]. split; [exact Hsm|].
  split.
  - apply (last_predictions_appended _ rows); [exact Eh' | lia | exact Hne].
  - split; [rewrite length_map, length_combine; lia|].
    split; [symmetry; exact S1|].
    intros k Hk. specialize (Hnth k Hk).
    destruct (nth_error hs (nth k (d_sort_mask d) 0)) as [parent|] eqn:Ep.
    + exists parent. split; [reflexivity|].
      apply nth_error_append_rows; [exact Hnth | lia].
    + apply nth_error_None in Hnth. lia.
Qed.

End DecoderInvariant.

(** Discharges [is_topk] for a selection of concrete candidates among
    up to nine positions. *)
Ltac topk_by_order9 :=
  apply is_topk_select;
  [ reflexivity
  | repeat (apply NoDup_cons; [simpl; lia|]); apply NoDup_nil
  | repeat (apply Forall_cons; [cbn [length]; lia|]); apply Forall_nil
  | let i := fresh "i" in let j := fresh "j" in
    let Hi := fresh "Hi" in let Hj := fresh "Hj" in let Hn := fresh "Hn" in
    intros i j Hi Hj Hn; cbn [length] in Hj; simpl in Hi;
    decompose [or] Hi; try contradiction; subst i;
    do 9 try (destruct j as [|j]; [try (exfalso; apply Hn; simpl; tauto)|]);
    try lia;
    cbn [nth]; unfold ext_le; first [exact I | apply Rle_refl] ].

Ltac run_step9 :=
  eapply Step_select;
  [ eval_goal; reflexivity | topk_by_order9 | eval_goal; reflexivity ].

(** Two steps of the decoder with vocabulary 4 and beam size 2, tokens
    0 and 2 legal, no newline variant: the masked first step, then a step
    on two rows where only token 0 survives the masking, with
    [torch.topk] returning flat positions 0 and 4 (token 0 of each row). *)
Lemma two_step_run :
  exists bs1 lp1 bs2 lp2,
    Step (fixed_possible_ids [0; 2]) (fixed_add_id []) 0 decoder_4_2 scenario_log_probs
      (select_at (front_scores (fixed_possible_ids [0; 2]) decoder_4_2 scenario_log_probs)
         [2; 0])
      bs1 lp1 (Returned (Some [0; 0])) /\
    Step (fixed_possible_ids [0; 2]) (fixed_add_id []) 0 bs1
      (tensor_of_rows 4 [[Fin 0; Fin 0; NegInf; Fin 0]; [Fin 0; Fin 0; NegInf; Fin 0]])
      (select_at (front_scores (fixed_possible_ids [0; 2]) bs1
                    (tensor_of_rows 4 [[Fin 0; Fin 0; NegInf; Fin 0];
                                       [Fin 0; Fin 0; NegInf; Fin 0]])) [0; 4])
      bs2 lp2 (Returned (Some [0; 1])) /\
    bs_hypotheses bs1 = Some [[2]; [0]] /\
    bs_hypotheses bs2 = Some [[2; 0]; [0; 0]] /\
    bs_is_initialized bs2 = true /\ bs_length bs2 = 3 /\
    exists h, In h (current_hypotheses bs2) /\ ids h = [2; 0].
Proof.
  do 4 eexists. split; [run_step|]. split; [run_step9|].
  split; [reflexivity|]. split; [reflexivity|]. split; [reflexivity|].
  split; [reflexivity|].
  eexists. split; [simpl; left; reflexivity | reflexivity].
Qed.

Lemma reachable_beam_inv_witness :
  exists bs, Steps (fixed_possible_ids [0; 2]) (fixed_add_id []) 0
               (new_BeamSearch 4 2 tt) bs /\
    bs_length bs = 3 /\ beam_inv 4 2 bs.
Proof.
  destruct two_step_run as (bs1 & lp1 & bs2 & lp2 & H1 & H2 & _ & _ & _ & HL & _).
  assert (Hs : Steps (fixed_possible_ids [0; 2]) (fixed_add_id []) 0
                 (new_BeamSearch 4 2 tt) bs2)
    by (eapply Steps_step; [exact H1|]; eapply Steps_step; [exact H2 | apply Steps_refl]).
  exists bs2. split; [exact Hs|]. split; [exact HL|].
  exact (reachable_beam_inv _ _ _ _ 4 2 tt bs2 Hs).
Defined.

Lemma reachable_current_hypotheses_witness :
  exists bs, Steps (fixed_possible_ids [0; 2]) (fixed_add_id []) 0
               (new_BeamSearch 4 2 tt) bs /\
    bs_is_initialized bs = true /\ bs_length bs = 3 /\
    length (current_hypotheses bs) = batch_size bs /\
    1 <= batch_size bs <= Nat.max 1 2 /\
    Forall (fun h => length (ids h) + 1 = bs_length bs /\ is_terminated h = false /\
                     nonpos_score (score h)) (current_hypotheses bs).
Proof.
  destruct two_step_run as (bs1 & lp1 & bs2 & lp2 & H1 & H2 & _ & _ & Hi & HL & _).
  assert (Hs : Steps (fixed_possible_ids [0; 2]) (fixed_add_id []) 0
                 (new_BeamSearch 4 2 tt) bs2)
    by (eapply Steps_step; [exact H1|]; eapply Steps_step; [exact H2 | apply Steps_refl]).
  exists bs2. split; [exact Hs|]. split; [exact Hi|]. split; [exact HL|].
  exact (reachable_current_hypotheses _ _ _ _ 4 2 tt bs2 Hs Hi).
Defined.

Lemma reachable_normalized_score_witness :
  exists bs h, Steps (fixed_possible_ids [0; 2]) (fixed_add_id []) 0
                 (new_BeamSearch 4 2 tt) bs /\
    (0 < default_len_norm_base)%R /\
    In h (bs_terminated_hypotheses bs ++ current_hypotheses bs) /\ ids h = [2; 0] /\
    exists x, get_normalized_score h default_len_norm_base default_len_norm_pow = Fin x /\
              (0 <= x <= 1)%R.
Proof.
  destruct two_step_run as (bs1 & lp1 & bs2 & lp2 & H1 & H2 & _ & _ & _ & _ & h & Hh & Hid).
  assert (Hs : Steps (fixed_possible_ids [0; 2]) (fixed_add_id []) 0
                 (new_BeamSearch 4 2 tt) bs2)
    by (eapply Steps_step; [exact H1|]; eapply Steps_step; [exact H2 | apply Steps_refl]).
  assert (Hb : (0 < default_len_norm_base)%R) by (unfold default_len_norm_base; lra).
  assert (Hin : In h (bs_terminated_hypotheses bs2 ++ current_hypotheses bs2))
    by (apply in_or_app; right; exact Hh).
  exists bs2, h. split; [exact Hs|]. split; [exact Hb|]. split; [exact Hin|].
  split; [exact Hid|].
  exact (reachable_normalized_score _ _ _ _ 4 2 tt bs2 _ _ h Hs Hb Hin).
Defined.

Lemma reachable_last_predictions_witness :
  exists bs, Steps (fixed_possible_ids [0; 2]) (fixed_add_id []) 0
               (new_BeamSearch 4 2 tt) bs /\
    bs_length bs = 3 /\
    (bs_length bs = 1 -> last_predictions bs = inl AssertionError) /\
    (1 < bs_length bs ->
     exists preds, last_predictions bs = inr preds /\ length preds = batch_size bs).
Proof.
  destruct two_step_run as (bs1 & lp1 & bs2 & lp2 & H1 & H2 & _ & _ & _ & HL & _).
  assert (Hs : Steps (fixed_possible_ids [0; 2]) (fixed_add_id []) 0
                 (new_BeamSearch 4 2 tt) bs2)
    by (eapply Steps_step; [exact H1|]; eapply Steps_step; [exact H2 | apply Steps_refl]).
  exists bs2. split; [exact Hs|]. split; [exact HL|].
  exact (reachable_last_predictions _ _ _ _ 4 2 tt bs2 Hs).
Defined.

Lemma step_length_counter_witness :
  exists bs1 lp sel bs2 lp2,
    Step (fixed_possible_ids [0; 2]) (fixed_add_id []) 0 bs1 lp sel bs2 lp2
      (Returned (Some [0; 1])) /\
    bs_length bs1 = 2 /\ bs_length bs2 = S (bs_length bs1).
Proof.
  destruct two_step_run as (bs1 & lp1 & bs2 & lp2 & H1 & H2 & _ & _ & _ & HL & _).
  do 5 eexists. split; [exact H2|].
  pose proof (step_length_counter _ _ _ _ _ _ _ _ _ _ H2) as E. simpl in E.
  split; [rewrite HL in E; lia | exact E].
Defined.

Lemma step_extends_parent_rows_witness :
  exists bs1 lp sel bs2 lp2,
    Steps (fixed_possible_ids [0; 2]) (fixed_add_id []) 0 (new_BeamSearch 4 2 tt) bs1 /\
    Step (fixed_possible_ids [0; 2]) (fixed_add_id []) 0 bs1 lp sel bs2 lp2
      (Returned (Some [0; 1])) /\
    bs_hypotheses bs1 = Some [[2]; [0]] /\
    exists hs' samples,
      bs_hypotheses bs2 = Some hs' /\ bs_samples bs2 = Some samples /\
      last_predictions bs2 = inr samples /\
      length hs' = length [0; 1] /\ length samples = length [0; 1] /\
      forall k, k < length [0; 1] ->
        exists parent, nth_error [[2]; [0]] (nth k [0; 1] 0) = Some parent /\
                       nth_error hs' k = Some (parent ++ [nth k samples 0]).
Proof.
  destruct two_step_run as (bs1 & lp1 & bs2 & lp2 & H1 & H2 & Eh1 & _).
  assert (Hs : Steps (fixed_possible_ids [0; 2]) (fixed_add_id []) 0
                 (new_BeamSearch 4 2 tt) bs1)
    by (eapply Steps_step; [exact H1 | apply Steps_refl]).
  do 5 eexists. split; [exact Hs|]. split; [exact H2|]. split; [exact Eh1|].
  exact (step_extends_parent_rows _ _ _ _ 4 2 tt bs1 _ _ bs2 _ _ _ Hs H2 Eh1).
Defined.

(** ** Facts about the evaluation code *)

Module EvaluatePredictionsFacts.
Import EvaluatePredictions.

Lemma levenshtein_cons_cons x a y b :
  levenshtein (x :: a) (y :: b) =
  Nat.min (S (levenshtein a (y :: b)))
    (Nat.min (S (levenshtein (x :: a) b)) (levenshtein a b + (if x =? y then 0 else 1))).
Proof. reflexivity. Qed.

Lemma levenshtein_nil_r a : levenshtein a [] = List.length a.
Proof. destruct a; reflexivity. Qed.

Lemma levenshtein_le_max a b :
  levenshtein a b <= Nat.max (List.length a) (List.length b).
Proof.
  revert b; induction a as [|x a IH]; intros b; [simpl; lia|].
  destruct b as [|y b]; [rewrite levenshtein_nil_r; simpl; lia|].
  rewrite levenshtein_cons_cons. specialize (IH b). cbn [List.length].
  destruct (x =? y); lia.
Qed.

Lemma levenshtein_zero a b : levenshtein a b = 0 -> a = b.
Proof.
  revert b; induction a as [|x a IH]; intros [|y b] H.
  - reflexivity.
  - discriminate H.
  - discriminate H.
  - rewrite levenshtein_cons_cons in H.
    destruct (x =? y) eqn:E; [|lia].
    apply Nat.eqb_eq in E. subst y. f_equal. apply IH. lia.
Qed.

Lemma levenshtein_refl a : levenshtein a a = 0.
Proof.
  induction a as [|x a IH]; [reflexivity|].
  rewrite levenshtein_cons_cons, Nat.eqb_refl. lia.
Qed.

Lemma levenshtein_sym a b : levenshtein a b = levenshtein b a.
Proof.
  revert b; induction a as [|x a IHa]; intros b.
  - rewrite levenshtein_nil_r. reflexivity.
  - induction b as [|y b IHb].
    + rewrite levenshtein_nil_r. reflexivity.
    + rewrite !levenshtein_cons_cons.
      rewrite (IHa (y :: b)), (IHa b), IHb, (Nat.eqb_sym x y). lia.
Qed.

Lemma remove_spaces_nil s :
  remove_spaces s = [] <-> Forall (fun c => c = 32) s.
Proof.
  unfold remove_spaces. induction s as [|c s IH]; simpl.
  - split; auto.
  - destruct (c =? 32) eqn:E; simpl.
    + apply Nat.eqb_eq in E. rewrite IH. split; [intros H; constructor; auto|].
      intros H; inversion H; auto.
    + split; [discriminate|]. intros H; inversion H; subst.
      rewrite Nat.eqb_refl in E. discriminate.
Qed.


Lemma edit_similarity_not_value_error a b : edit_similarity a b <> inl ValueError.
Proof.
  unfold edit_similarity. cbv zeta.
  destruct (_ =? 0); discriminate.
Qed.

Lemma insert_desc_perm {A} (key : A -> R) x l :
  Permutation (insert_desc key x l) (x :: l).
Proof.
  induction l as [|y l IH]; simpl; [reflexivity|].
  destruct (Rlt_dec (key x) (key y)); [|reflexivity].
  eapply perm_trans; [apply perm_skip, IH | apply perm_swap].
Qed.

Lemma sorted_desc_perm {A} (key : A -> R) l : Permutation (sorted_desc key l) l.
Proof.
  induction l as [|x l IH]; simpl; [reflexivity|].
  eapply perm_trans; [apply insert_desc_perm | apply perm_skip, IH].
Qed.

Lemma insert_desc_sorted {A} (key : A -> R) x l :
  Sorted (fun a b => (key b <= key a)%R) l ->
  Sorted (fun a b => (key b <= key a)%R) (insert_desc key x l).
Proof.
  induction l as [|y l IH]; intros Hs; simpl.
  - repeat constructor.
  - destruct (Rlt_dec (key x) (key y)) as [Hlt|Hge].
    + inversion Hs as [|? ? Hl Hhd]; subst. constructor; [apply IH, Hl|].
      destruct l as [|z l]; simpl.
      * constructor. lra.
      * inversion Hhd; subst.
        destruct (Rlt_dec (key x) (key z)); constructor; lra.
    + constructor; [exact Hs|]. constructor. apply Rnot_lt_le, Hge.
Qed.

Lemma sorted_desc_sorted {A} (key : A -> R) l :
  StronglySorted (fun a b => (key b <= key a)%R) (sorted_desc key l).
Proof.
  apply Sorted_StronglySorted; [intros a b c; lra|].
  induction l as [|x l IH]; simpl; [constructor|].
  apply insert_desc_sorted, IH.
Qed.

Lemma StronglySorted_app_inv {A} (Rel : A -> A -> Prop) l1 l2 :
  StronglySorted Rel (l1 ++ l2) ->
  StronglySorted Rel l1 /\ forall a b, In a l1 -> In b l2 -> Rel a b.
Proof.
  induction l1 as [|x l1 IH]; simpl; intros Hs.
  - split; [constructor | intros a b []].
  - inversion Hs as [|? ? Hs' Hf]; subst.
    destruct (IH Hs') as [H1 H2]. apply Forall_app in Hf. destruct Hf as [Hf1 Hf2].
    split; [constructor; assumption|].
    intros a b [<-|Ha] Hb; [|apply H2; assumption].
    rewrite Forall_forall in Hf2. apply Hf2, Hb.
Qed.

Lemma length_sorted_desc {A} (key : A -> R) l :
  List.length (sorted_desc key l) = List.length l.
Proof. apply Permutation_length, sorted_desc_perm. Qed.

Lemma length_get_top_k pp p k :
  List.length (get_top_k pp p k) =
  if (k <? 0)%Z then List.length (hypotheses p) - Z.to_nat (- k)
  else Nat.min (Z.to_nat k) (List.length (hypotheses p)).
Proof.
  unfold get_top_k, slice_upto. rewrite length_sorted_desc.
  destruct (k <? 0)%Z; rewrite length_firstn, length_sorted_desc; lia.
Qed.

Lemma max_similarity_cons h rest t :
  max_similarity (h :: rest) t =
  match edit_similarity (prediction h) t with
  | inl e => inl e
  | inr x =>
      match rest with
      | [] => inr x
      | _ :: _ =>
          match max_similarity rest t with
          | inl e => inl e
          | inr y => inr (Rmax x y)
          end
      end
  end.
Proof. reflexivity. Qed.

Lemma max_similarity_value_error hyps t :
  max_similarity hyps t = inl ValueError <-> hyps = [].
Proof.
  induction hyps as [|h rest IH]; [simpl; split; auto|].
  rewrite max_similarity_cons. split; [|discriminate]. intros H.
  destruct (edit_similarity (prediction h) t) eqn:E.
  - inversion H; subst. exfalso. exact (edit_similarity_not_value_error _ _ E).
  - destruct rest as [|h' rest']; [discriminate|].
    destruct (max_similarity (h' :: rest') t); [|discriminate].
    inversion H; subst. apply IH in H. discriminate.
Qed.

Lemma max_similarity_app l1 l2 t y :
  l1 <> [] -> max_similarity (l1 ++ l2) t = inr y ->
  exists x, max_similarity l1 t = inr x /\ (x <= y)%R.
Proof.
  revert y; induction l1 as [|h l1 IH]; intros y Hne H; [congruence|].
  rewrite <- app_comm_cons, max_similarity_cons in H. rewrite max_similarity_cons.
  destruct (edit_similarity (prediction h) t) as [e|x0]; [discriminate|].
  destruct l1 as [|h' l1'].
  - exists x0. split; [reflexivity|].
    destruct l2 as [|h2 l2']; cbn [app] in H.
    + inversion H. lra.
    + destruct (max_similarity (h2 :: l2') t); inversion H. apply Rmax_l.
  - cbn [app] in H.
    destruct (max_similarity (h' :: l1' ++ l2) t) as [e|y'] eqn:Ey; [discriminate|].
    inversion H; subst.
    destruct (IH y' ltac:(discriminate) Ey) as (x' & Hx' & Hle).
    rewrite Hx'. exists (Rmax x0 x'). split; [reflexivity|].
    unfold Rmax. destruct (Rle_dec x0 x'), (Rle_dec x0 y'); lra.
Qed.

(** [edit_similarity] raises [ZeroDivisionError] exactly when both
    strings consist of spaces only (after removing them, the longer one
    has length 0). *)
Theorem edit_similarity_zero_division a b :
  edit_similarity a b = inl ZeroDivisionError <->
  Forall (fun c => c = 32) a /\ Forall (fun c => c = 32) b.
Proof.
  rewrite <- !remove_spaces_nil. unfold edit_similarity. cbv zeta.
  destruct (remove_spaces a) as [|x a'], (remove_spaces b) as [|y b'];
    simpl; split; intros H;
    first [ reflexivity | split; reflexivity | discriminate H
          | destruct H as [H1 H2]; first [discriminate H1 | discriminate H2] ].
Qed.

(** When [edit_similarity] returns, its value lies in [[0, 100]]: the
    edit distance never exceeds the longer string's length. *)
Theorem edit_similarity_range a b x :
  edit_similarity a b = inr x -> (0 <= x <= 100)%R.
Proof.
  unfold edit_similarity. cbv zeta.
  pose proof (levenshtein_le_max (remove_spaces a) (remove_spaces b)) as Hle.
  set (d := levenshtein (remove_spaces a) (remove_spaces b)) in *.
  set (m := Nat.max (List.length (remove_spaces a)) (List.length (remove_spaces b))) in *.
  destruct (m =? 0) eqn:Em; [discriminate|]. intros H. inversion H; subst x.
  apply Nat.eqb_neq in Em.
  assert (Hm : (0 < INR m)%R) by (apply lt_0_INR; lia).
  assert (Hd : (0 <= INR d)%R) by apply pos_INR.
  assert (Hdm : (INR d <= INR m)%R) by (apply le_INR; exact Hle).
  assert (Hr : (0 <= INR d / INR m <= 1)%R).
  { unfold Rdiv. split.
    - apply Rmult_le_pos; [exact Hd | left; apply Rinv_0_lt_compat, Hm].
    - apply (Rmult_le_reg_r (INR m)); [exact Hm|].
      rewrite Rmult_assoc, Rinv_l by lra. lra. }
  lra.
Qed.

(** [edit_similarity] returns 100 exactly when the two strings are equal
    once their spaces are removed. *)
Theorem edit_similarity_full_iff a b x :
  edit_similarity a b = inr x -> (x = 100%R <-> remove_spaces a = remove_spaces b).
Proof.
  unfold edit_similarity. cbv zeta.
  set (m := Nat.max (List.length (remove_spaces a)) (List.length (remove_spaces b))).
  destruct (m =? 0) eqn:Em; [discriminate|]. intros H. inversion H; subst x.
  apply Nat.eqb_neq in Em.
  assert (Hm : (0 < INR m)%R) by (apply lt_0_INR; lia).
  split.
  - intros E. apply levenshtein_zero.
    assert (Hz : (INR (levenshtein (remove_spaces a) (remove_spaces b)) * / INR m = 0)%R)
      by (unfold Rdiv in E; lra).
    apply Rmult_integral in Hz. destruct Hz as [Hz|Hz].
    + apply INR_eq. simpl. exact Hz.
    + exfalso. apply (Rinv_neq_0_compat (INR m)); [lra | exact Hz].
  - intros E. rewrite E, levenshtein_refl. simpl. unfold Rdiv. lra.
Qed.

(** [edit_similarity] is symmetric in its two arguments. *)
Theorem edit_similarity_symmetric a b : edit_similarity a b = edit_similarity b a.
Proof.
  unfold edit_similarity. cbv zeta.
  rewrite levenshtein_sym, Nat.max_comm. reflexivity.
Qed.

(** For [k >= 0] (and a positive [len_norm_base], where the ranking key
    is a real number), [get_top_k] returns [min(k, n)] of the [n]
    hypotheses, ranked by non-increasing normalised score, and every
    hypothesis it leaves out ranks no higher than every one it returns. *)
Theorem get_top_k_selects pp p k :
  (0 < PredictionPostprocessor.len_norm_base pp)%R -> (0 <= k)%Z ->
  List.length (get_top_k pp p k) = Nat.min (Z.to_nat k) (List.length (hypotheses p)) /\
  StronglySorted (fun a b => (rank_key pp b <= rank_key pp a)%R) (get_top_k pp p k) /\
  exists rest,
    Permutation (hypotheses p) (get_top_k pp p k ++ rest) /\
    forall a b, In a (get_top_k pp p k) -> In b rest ->
      (rank_key pp b <= rank_key pp a)%R.
Proof.
  intros _ Hk.
  assert (Hlt : (k <? 0)%Z = false) by (apply Z.ltb_ge; exact Hk).
  pose proof (sorted_desc_sorted (rank_key pp) (hypotheses p)) as Hs.
  rewrite <- (firstn_skipn (Z.to_nat k) (sorted_desc (rank_key pp) (hypotheses p))) in Hs.
  apply StronglySorted_app_inv in Hs. destruct Hs as [Hs1 Hs2].
  unfold get_top_k, slice_upto. rewrite Hlt.
  split; [rewrite length_firstn, length_sorted_desc; reflexivity|].
  split; [exact Hs1|].
  exists (skipn (Z.to_nat k) (sorted_desc (rank_key pp) (hypotheses p))).
  split; [|exact Hs2].
  rewrite firstn_skipn. symmetry. apply sorted_desc_perm.
Qed.

(** For [0 <= k <= k'], the top [k] are the first [k] of the top [k']. *)
Theorem get_top_k_prefix pp p k k' :
  (0 < PredictionPostprocessor.len_norm_base pp)%R -> (0 <= k <= k')%Z ->
  get_top_k pp p k = firstn (Z.to_nat k) (get_top_k pp p k').
Proof.
  intros _ Hk. unfold get_top_k, slice_upto.
  replace (k <? 0)%Z with false by (symmetry; apply Z.ltb_ge; lia).
  replace (k' <? 0)%Z with false by (symmetry; apply Z.ltb_ge; lia).
  rewrite firstn_firstn. f_equal. lia.
Qed.

(** A negative [k = -j] drops the [j] lowest-ranked hypotheses:
    [get_top_k(p, -j)] is [get_top_k(p, n - j)], empty when [j >= n]. *)
Theorem get_top_k_negative pp p j :
  (0 < PredictionPostprocessor.len_norm_base pp)%R -> (0 < j)%Z ->
  get_top_k pp p (- j) =
  get_top_k pp p (Z.of_nat (List.length (hypotheses p) - Z.to_nat j)).
Proof.
  intros _ Hj. unfold get_top_k, slice_upto.
  replace (- j <? 0)%Z with true by (symmetry; apply Z.ltb_lt; lia).
  replace (Z.of_nat _ <? 0)%Z with false by (symmetry; apply Z.ltb_ge; lia).
  rewrite Z.opp_involutive, Nat2Z.id, length_sorted_desc. reflexivity.
Qed.

(** The per-prediction score raises [ValueError] ([max] of an empty
    sequence) exactly when [k = 0], the prediction has no hypotheses, or
    [k] is negative with [|k| >= n]. *)
Theorem prediction_score_value_error pp p k :
  (0 < PredictionPostprocessor.len_norm_base pp)%R ->
  prediction_score pp p k = inl ValueError <->
  (k = 0 \/ hypotheses p = [] \/
   (k < 0 /\ Z.of_nat (List.length (hypotheses p)) <= - k))%Z.
Proof.
  intros _. unfold prediction_score. rewrite max_similarity_value_error.
  rewrite <- length_zero_iff_nil, length_get_top_k, <- length_zero_iff_nil.
  destruct (k <? 0)%Z eqn:Ek; [apply Z.ltb_lt in Ek | apply Z.ltb_ge in Ek]; lia.
Qed.

(** The per-prediction score never decreases when [k] grows: if the
    score at [k + 1] is [y] and [k >= 1], the score at [k] is some
    [x <= y]. *)
Theorem prediction_score_monotone pp p k y :
  (0 < PredictionPostprocessor.len_norm_base pp)%R -> (1 <= k)%Z ->
  prediction_score pp p (k + 1) = inr y ->
  exists x, prediction_score pp p k = inr x /\ (x <= y)%R.
Proof.
  intros Hb Hk H. unfold prediction_score in *.
  rewrite (get_top_k_prefix pp p k (k + 1) Hb ltac:(lia)).
  rewrite <- (firstn_skipn (Z.to_nat k) (get_top_k pp p (k + 1))) in H.
  eapply max_similarity_app; [|exact H].
  intros E. apply length_zero_iff_nil in E. rewrite length_firstn in E.
  destruct (get_top_k pp p (k + 1)) eqn:Et.
  - rewrite <- Et in H. rewrite firstn_skipn in H.
    rewrite Et in H. discriminate.
  - simpl in E. lia.
Qed.

Lemma max_similarity_range hyps t y :
  max_similarity hyps t = inr y -> (0 <= y <= 100)%R.
Proof.
  revert y; induction hyps as [|h rest IH]; intros y H; [discriminate|].
  rewrite max_similarity_cons in H.
  destruct (edit_similarity (prediction h) t) as [e|x] eqn:E; [discriminate|].
  apply edit_similarity_range in E.
  destruct rest as [|h' rest']; [inversion H; subst; exact E|].
  case_eq (max_similarity (h' :: rest') t);
    [intros e Ey; rewrite Ey in H; discriminate | intros y' Ey; rewrite Ey in H].
  inversion H; subst. apply IH in Ey.
  unfold Rmax. destruct (Rle_dec x y'); lra.
Qed.

(** When it returns, the per-prediction score lies in [[0, 100]]. *)
Theorem prediction_score_range pp p k y :
  prediction_score pp p k = inr y -> (0 <= y <= 100)%R.
Proof. apply max_similarity_range. Qed.

(** *** Witnesses on concrete predictions *)

Lemma edit_similarity_range_witness :
  exists x, edit_similarity [97; 32; 98] [97; 99] = inr x /\ (0 <= x <= 100)%R.
Proof.
  eexists. split; [reflexivity|].
  apply (edit_similarity_range [97; 32; 98] [97; 99]). reflexivity.
Defined.

Lemma edit_similarity_full_iff_witness :
  exists x, edit_similarity [97; 32; 98] [97; 98] = inr x /\
    (x = 100%R <-> remove_spaces [97; 32; 98] = remove_spaces [97; 98]).
Proof.
  eexists. split; [reflexivity|].
  apply (edit_similarity_full_iff [97; 32; 98] [97; 98]). reflexivity.
Defined.

Lemma get_top_k_selects_witness :
  (0 < PredictionPostprocessor.len_norm_base pp_10_07)%R /\ (0 <= 1)%Z /\
  List.length (get_top_k pp_10_07 two_hypotheses 1) =
    Nat.min (Z.to_nat 1) (List.length (hypotheses two_hypotheses)) /\
  StronglySorted (fun a b => (rank_key pp_10_07 b <= rank_key pp_10_07 a)%R)
    (get_top_k pp_10_07 two_hypotheses 1) /\
  exists rest,
    Permutation (hypotheses two_hypotheses)
      (get_top_k pp_10_07 two_hypotheses 1 ++ rest) /\
    forall a b, In a (get_top_k pp_10_07 two_hypotheses 1) -> In b rest ->
      (rank_key pp_10_07 b <= rank_key pp_10_07 a)%R.
Proof.
  assert (Hb : (0 < PredictionPostprocessor.len_norm_base pp_10_07)%R)
    by (unfold pp_10_07; simpl; lra).
  split; [exact Hb|]. split; [lia|].
  exact (get_top_k_selects pp_10_07 two_hypotheses 1 Hb ltac:(lia)).
Defined.

Lemma get_top_k_prefix_witness :
  (0 < PredictionPostprocessor.len_norm_base pp_10_07)%R /\ (0 <= 1 <= 2)%Z /\
  get_top_k pp_10_07 two_hypotheses 1 =
    firstn (Z.to_nat 1) (get_top_k pp_10_07 two_hypotheses 2).
Proof.
  assert (Hb : (0 < PredictionPostprocessor.len_norm_base pp_10_07)%R)
    by (unfold pp_10_07; simpl; lra).
  split; [exact Hb|]. split; [lia|].
  exact (get_top_k_prefix pp_10_07 two_hypotheses 1 2 Hb ltac:(lia)).
Defined.

Lemma get_top_k_negative_witness :
  (0 < PredictionPostprocessor.len_norm_base pp_10_07)%R /\ (0 < 1)%Z /\
  get_top_k pp_10_07 two_hypotheses (- 1) = get_top_k pp_10_07 two_hypotheses 1.
Proof.
  assert (Hb : (0 < PredictionPostprocessor.len_norm_base pp_10_07)%R)
    by (unfold pp_10_07; simpl; lra).
  split; [exact Hb|]. split; [lia|].
  exact (get_top_k_negative pp_10_07 two_hypotheses 1 Hb ltac:(lia)).
Defined.

Lemma prediction_score_value_error_witness :
  (0 < PredictionPostprocessor.len_norm_base pp_10_07)%R /\
  prediction_score pp_10_07 two_hypotheses 0 = inl ValueError /\
  prediction_score pp_10_07 two_hypotheses (- 2) = inl ValueError.
Proof.
  assert (Hb : (0 < PredictionPostprocessor.len_norm_base pp_10_07)%R)
    by (unfold pp_10_07; simpl; lra).
  split; [exact Hb|]. split.
  - apply (proj2 (prediction_score_value_error pp_10_07 two_hypotheses 0 Hb)).
    left; reflexivity.
  - apply (proj2 (prediction_score_value_error pp_10_07 two_hypotheses (- 2) Hb)).
    right; right. simpl. lia.
Defined.

(** [get_top_k] on [reranked_hypotheses] puts "ac" first. *)
Lemma reranked_top_k :
  get_top_k pp_10_07 reranked_hypotheses 2 =
    [mkTextHypothesis [97; 99] (-1) 2; mkTextHypothesis [97; 98] (-2) 2] /\
  get_top_k pp_10_07 reranked_hypotheses 1 = [mkTextHypothesis [97; 99] (-1) 2].
Proof.
  assert (Hn : (0 < norm_factor 10 2 0.7)%R) by (apply norm_factor_pos; lra).
  assert (Hk : ~ (-1 / norm_factor 10 2 0.7 < -2 / norm_factor 10 2 0.7)%R).
  { unfold Rdiv. pose proof (Rinv_0_lt_compat _ Hn). nra. }
  unfold get_top_k, sorted_desc, slice_upto, rank_key,
    PredictionPostprocessor.normalize_score; simpl.
  destruct (Rlt_dec _ _) as [Hc|_]; [contradiction|].
  split; reflexivity.
Qed.

(** Witness of the monotonicity: on [reranked_hypotheses] the score grows
    strictly from [k = 1] (only "ac": 50) to [k = 2] ("ab" too: 100). *)
Lemma prediction_score_monotone_witness :
  prediction_score pp_10_07 reranked_hypotheses 1 = inr 50%R /\
  prediction_score pp_10_07 reranked_hypotheses 2 = inr 100%R /\
  (0 < PredictionPostprocessor.len_norm_base pp_10_07)%R /\ (1 <= 1)%Z /\
  exists x, prediction_score pp_10_07 reranked_hypotheses 1 = inr x /\ (x <= 100)%R.
Proof.
  assert (Hb : (0 < PredictionPostprocessor.len_norm_base pp_10_07)%R)
    by (unfold pp_10_07; simpl; lra).
  destruct reranked_top_k as [E2 E1].
  assert (H1 : prediction_score pp_10_07 reranked_hypotheses 1 = inr 50%R).
  { unfold prediction_score. rewrite E1. cbn. f_equal. lra. }
  assert (H2 : prediction_score pp_10_07 reranked_hypotheses 2 = inr 100%R).
  { unfold prediction_score. rewrite E2. cbn. f_equal.
    unfold Rmax. destruct (Rle_dec _ _); lra. }
  split; [exact H1|]. split; [exact H2|]. split; [exact Hb|]. split; [lia|].
  exact (prediction_score_monotone pp_10_07 reranked_hypotheses 1 100%R Hb
           ltac:(lia) H2).
Defined.

Lemma prediction_score_range_witness :
  exists y, prediction_score pp_10_07 one_hypothesis 1 = inr y /\ (0 <= y <= 100)%R.
Proof.
  eexists. split; [reflexivity|].
  apply (prediction_score_range pp_10_07 one_hypothesis 1). reflexivity.
Defined.

End EvaluatePredictionsFacts.
